(** * Weather-forcast: the query pipeline of [App.jsx] and the relay of
    [api/weather.js]

  The development embeds the two pieces of the repository that carry
  control flow:

  - [fetchWeather], the callback of the [App] component in
    [src/App.jsx] (query normalisation, choice of the transport, the
    classification of the answer, the delayed retry and the list of recent
    searches);
  - the request handler exported by [api/weather.js] (the relay).

  [App.jsx] is taken at its latest revision, the one that knows the relay;
  the earlier revisions kept with the sources always call the weather
  service directly and are otherwise the same pipeline.

  A JavaScript string is represented by the [string] of its UTF-8 bytes, so
  that an ASCII character is itself, concatenation is concatenation and
  [===] is equality.  The two methods of [String.prototype] the code calls,
  [trim] and [toLowerCase], follow the Unicode tables of the runtime, which
  are no part of the repository: the development takes them as a parameter
  ([Js.Runtime]) together with the laws it uses of them ([Js.Lawful]), among
  which that on ASCII strings they are the functions of [Ascii7].  Two
  runtimes are built and shown to have the laws, to run the pipeline on:
  one on ASCII strings ([ascii_runtime]) and one on Latin-1 text
  ([latin1_runtime]).  Objects used as dictionaries (the [params] of a
  request, [req.query]) are [gmap string string]. *)

From Stdlib Require Import Ascii String NArith ZArith Bool List Lia.
From stdpp Require Import base option list strings gmap.

Local Open Scope string_scope.

(** ** The string methods on ASCII strings *)

Module Ascii7.

(** The ASCII white space and line terminators: TAB, LF, VT, FF, CR and
    SPACE. *)
Definition isWhiteSpace (c : ascii) : bool :=
  match N_of_ascii c with
  | 9%N | 10%N | 11%N | 12%N | 13%N | 32%N => true
  | _ => false
  end.

Fixpoint trimStart (s : string) : string :=
  match s with
  | EmptyString => EmptyString
  | String c r => if isWhiteSpace c then trimStart r else s
  end.

Fixpoint trimEnd (s : string) : string :=
  match s with
  | EmptyString => EmptyString
  | String c r =>
      match trimEnd r with
      | EmptyString => if isWhiteSpace c then EmptyString else String c EmptyString
      | r' => String c r'
      end
  end.

(** [trim] on a string of ASCII characters. *)
Definition trim (s : string) : string := trimEnd (trimStart s).

Definition lowerChar (c : ascii) : ascii :=
  let n := N_of_ascii c in
  if (65 <=? n)%N && (n <=? 90)%N then ascii_of_N (n + 32) else c.

Definition upperChar (c : ascii) : ascii :=
  let n := N_of_ascii c in
  if (97 <=? n)%N && (n <=? 122)%N then ascii_of_N (n - 32) else c.

(** [toLowerCase] on a string of ASCII characters. *)
Fixpoint toLowerCase (s : string) : string :=
  match s with
  | EmptyString => EmptyString
  | String c r => String (lowerChar c) (toLowerCase r)
  end.

Fixpoint toUpperCase (s : string) : string :=
  match s with
  | EmptyString => EmptyString
  | String c r => String (upperChar c) (toUpperCase r)
  end.

(** A string of ASCII characters: every byte is below 128. *)
Fixpoint ascii_only (s : string) : bool :=
  match s with
  | EmptyString => true
  | String c r => (N_of_ascii c <? 128)%N && ascii_only r
  end.

End Ascii7.

(** ** The string methods on Latin-1 text

    A second sample of the two methods, which also knows the characters
    U+0080 to U+00FF in their UTF-8 form: [trim] removes U+00A0 as well and
    [toLowerCase] maps the capitals U+00C0 to U+00DE as well. *)

Module Latin1.

(** A character as the two methods see it: a byte by itself, or one of the
    lead bytes C2 and C3 with its continuation byte (the code points U+0080
    to U+00FF). *)
Inductive Char :=
| One (c : ascii)
| Two (lead cont : ascii).

Definition is_lead (c : ascii) : bool :=
  match N_of_ascii c with
  | 194%N | 195%N => true
  | _ => false
  end.

Definition is_cont (c : ascii) : bool :=
  (128 <=? N_of_ascii c)%N && (N_of_ascii c <=? 191)%N.

Fixpoint decode (s : string) : list Char :=
  match s with
  | EmptyString => []
  | String c r =>
      match r with
      | String d r' =>
          if is_lead c && is_cont d then Two c d :: decode r'
          else One c :: decode r
      | EmptyString => [One c]
      end
  end.

Definition first_byte (ch : Char) : ascii :=
  match ch with
  | One c => c
  | Two a _ => a
  end.

Definition encode1 (ch : Char) (s : string) : string :=
  match ch with
  | One c => String c s
  | Two a b => String a (String b s)
  end.

Fixpoint encode (l : list Char) : string :=
  match l with
  | [] => EmptyString
  | ch :: r => encode1 ch (encode r)
  end.

(** The ASCII white space and U+00A0 (C2 A0). *)
Definition isWhiteSpace (ch : Char) : bool :=
  match ch with
  | One c => Ascii7.isWhiteSpace c
  | Two a b => (N_of_ascii a =? 194)%N && (N_of_ascii b =? 160)%N
  end.

(** A to Z, and U+00C0 to U+00DE but U+00D7 (C3 80 to C3 9E but C3 97). *)
Definition lowerChar (ch : Char) : Char :=
  match ch with
  | One c => One (Ascii7.lowerChar c)
  | Two a b =>
      let n := N_of_ascii b in
      if (N_of_ascii a =? 195)%N && ((128 <=? n)%N && (n <=? 158)%N && negb (n =? 151)%N)
      then Two a (ascii_of_N (n + 32)) else Two a b
  end.

Fixpoint dropStart (l : list Char) : list Char :=
  match l with
  | [] => []
  | ch :: r => if isWhiteSpace ch then dropStart r else l
  end.

Fixpoint dropEnd (l : list Char) : list Char :=
  match l with
  | [] => []
  | ch :: r =>
      match dropEnd r with
      | [] => if isWhiteSpace ch then [] else [ch]
      | r' => ch :: r'
      end
  end.

Definition trim (s : string) : string := encode (dropEnd (dropStart (decode s))).

Definition toLowerCase (s : string) : string := encode (map lowerChar (decode s)).

(** The lists of characters that [decode] produces: a pair is a lead byte
    with a continuation byte, and a lead byte by itself is not followed by
    a continuation byte. *)
Definition starts_cont (l : list Char) : bool :=
  match l with
  | ch :: _ => is_cont (first_byte ch)
  | [] => false
  end.

Fixpoint wf (l : list Char) : bool :=
  match l with
  | [] => true
  | One c :: r => negb (is_lead c && starts_cont r) && wf r
  | Two a b :: r => is_lead a && is_cont b && wf r
  end.

End Latin1.

(** ** JavaScript string primitives *)

Module Js.

(** [!s] is false exactly for the non-empty strings. *)
Definition truthy (s : string) : bool :=
  match s with
  | EmptyString => false
  | String _ _ => true
  end.

(** [a || b || c] over possibly absent strings: the first operand that is
    present and non-empty, otherwise the last one. *)
Definition or_else (a : option string) (b : string) : string :=
  match a with
  | Some s => if truthy s then s else b
  | None => b
  end.

(** A string made of ASCII white space only. *)
Fixpoint blank (s : string) : bool :=
  match s with
  | EmptyString => true
  | String c r => Ascii7.isWhiteSpace c && blank r
  end.

(** [String.prototype.trim] and [String.prototype.toLowerCase] of the
    runtime. *)
Class Runtime := {
  trim : string -> string;
  toLowerCase : string -> string
}.

(** What the development uses of the two methods.  [trim] removes the white
    space and the line terminators at both ends (the ASCII ones, U+00A0,
    U+FEFF, U+2028, U+2029 and the Unicode space separators) and
    [toLowerCase] is the default case conversion of Unicode: trimming twice
    is trimming once, lowercasing twice is lowercasing once, lowercasing
    neither makes nor removes white space at the ends, strings that trim to
    nothing are trimmed away around any string, and on ASCII strings the two
    methods are those of [Ascii7]. *)
Class Lawful (rt : Runtime) : Prop := {
  trim_trim : forall s, trim (trim s) = trim s;
  lower_lower : forall s, toLowerCase (toLowerCase s) = toLowerCase s;
  trim_lower_comm : forall s, trim (toLowerCase s) = toLowerCase (trim s);
  trim_around : forall ws1 s ws2,
    trim ws1 = "" -> trim ws2 = "" -> trim (ws1 ++ s ++ ws2) = trim s;
  trim_ascii : forall s, Ascii7.ascii_only s = true -> trim s = Ascii7.trim s;
  lower_ascii : forall s,
    Ascii7.ascii_only s = true -> toLowerCase s = Ascii7.toLowerCase s
}.

End Js.

(** The runtime on ASCII strings, to run the pipeline on ASCII input. *)
Definition ascii_runtime : Js.Runtime :=
  {| Js.trim := Ascii7.trim; Js.toLowerCase := Ascii7.toLowerCase |}.

(** The runtime on Latin-1 text. *)
Definition latin1_runtime : Js.Runtime :=
  {| Js.trim := Latin1.trim; Js.toLowerCase := Latin1.toLowerCase |}.

(** ** The normalisation of the query ([App.jsx], the two lines after
     [setError(null)])

  [let searchCity = query.trim().toLowerCase();
   if (searchCity === 'banglore') searchCity = 'bangalore';] *)

Definition alias (searchCity : string) : string :=
  if String.eqb searchCity "banglore" then "bangalore" else searchCity.

Definition normalize `{rt : Js.Runtime} (query : string) : string :=
  alias (Js.toLowerCase (Js.trim query)).

(** ** Data exchanged with the weather service *)

(** [response.data.error] of a body with [success === false]; each of the
    three properties may be missing. *)
Record ApiError := {
  error_code : option Z;
  error_info : option string;
  error_type : option string
}.

(** A body that is not a failure: the only property the pipeline reads is
    [location.name]; the rest of the report travels along unread. *)
Record WeatherData := {
  location_name : string;
  report : string
}.

(** [response.data]: the test [response.data.success === false] separates the
    two shapes. *)
Inductive ResponseData :=
| Failure (e : ApiError)
| Report (d : WeatherData).

(** The error thrown by [axios.get]: [err.response] (status and body) when the
    server answered, [err.code] and [err.message]. *)
Record AxiosError := {
  err_response : option (Z * ResponseData);
  err_code : option string;
  err_message : string
}.

(** What [await axios.get(...)] produces: a response (status and body), or a
    thrown error. *)
Inductive AxiosResult :=
| Resolved (status : Z) (data : ResponseData)
| Rejected (err : AxiosError).

(** A GET request: [axios.get(url, { params })]. *)
Record Request := {
  url : string;
  params : gmap string string
}.

Module App.

(** ** The state of the [App] component *)

(** The values [fetchWeather] closes over: the dependency list of its
    [useCallback] ([apiKey, useHistorical, historicalDate, recentSearches]).
    A callback keeps the values of the render that created it. *)
Record Closure := {
  apiKey : string;
  useHistorical : bool;
  historicalDate : string;
  recentSearches : list string
}.

(** The part of a call that waits on [await axios.get]: its closure, its local
    [searchCity] and the request that went out. *)
Record Pending := {
  p_env : Closure;
  p_searchCity : string;
  request_of : Request
}.

(** A callback handed to [setTimeout]: [() => fetchWeather(searchCity)], where
    [fetchWeather] is the callback of the render that scheduled it. *)
Record Timer := {
  t_env : Closure;
  t_query : string;
  t_delay : Z
}.

(** The state cells of the component ([useState]), [window.location.protocol],
    the item [skycast_recent] of [localStorage], the pending timers, the
    requests in flight and the log of the requests sent. *)
Record World := {
  weatherData : option WeatherData;
  loading : bool;
  error : option string;
  lastUpdated : option string;
  st_apiKey : string;
  st_useHistorical : bool;
  st_historicalDate : string;
  st_recentSearches : list string;
  protocol : string;
  skycast_recent : list string;
  timers : list Timer;
  inflight : list Pending;
  sent : list Request
}.

(** A statement of the callback: a state transformer. *)
Definition Cmd := World -> World.

Definition skip : Cmd := fun w => w.

Definition seq (c1 c2 : Cmd) : Cmd := fun w => c2 (c1 w).

Declare Scope cmd_scope.
Delimit Scope cmd_scope with cmd.
Bind Scope cmd_scope with Cmd.
Notation "c1 >> c2" := (seq c1 c2) (at level 65, right associativity) : cmd_scope.
Local Open Scope cmd_scope.

(** [setWeatherData(v)] *)
Definition setWeatherData (v : option WeatherData) : Cmd := fun w =>
  {| weatherData := v; loading := loading w; error := error w;
     lastUpdated := lastUpdated w; st_apiKey := st_apiKey w;
     st_useHistorical := st_useHistorical w;
     st_historicalDate := st_historicalDate w;
     st_recentSearches := st_recentSearches w; protocol := protocol w;
     skycast_recent := skycast_recent w; timers := timers w;
     inflight := inflight w; sent := sent w |}.

(** [setLoading(v)] *)
Definition setLoading (v : bool) : Cmd := fun w =>
  {| weatherData := weatherData w; loading := v; error := error w;
     lastUpdated := lastUpdated w; st_apiKey := st_apiKey w;
     st_useHistorical := st_useHistorical w;
     st_historicalDate := st_historicalDate w;
     st_recentSearches := st_recentSearches w; protocol := protocol w;
     skycast_recent := skycast_recent w; timers := timers w;
     inflight := inflight w; sent := sent w |}.

(** [setError(v)] *)
Definition setError (v : option string) : Cmd := fun w =>
  {| weatherData := weatherData w; loading := loading w; error := v;
     lastUpdated := lastUpdated w; st_apiKey := st_apiKey w;
     st_useHistorical := st_useHistorical w;
     st_historicalDate := st_historicalDate w;
     st_recentSearches := st_recentSearches w; protocol := protocol w;
     skycast_recent := skycast_recent w; timers := timers w;
     inflight := inflight w; sent := sent w |}.

(** [setLastUpdated(v)] *)
Definition setLastUpdated (v : option string) : Cmd := fun w =>
  {| weatherData := weatherData w; loading := loading w; error := error w;
     lastUpdated := v; st_apiKey := st_apiKey w;
     st_useHistorical := st_useHistorical w;
     st_historicalDate := st_historicalDate w;
     st_recentSearches := st_recentSearches w; protocol := protocol w;
     skycast_recent := skycast_recent w; timers := timers w;
     inflight := inflight w; sent := sent w |}.

(** [setApiKey(v)] *)
Definition setApiKey (v : string) : Cmd := fun w =>
  {| weatherData := weatherData w; loading := loading w; error := error w;
     lastUpdated := lastUpdated w; st_apiKey := v;
     st_useHistorical := st_useHistorical w;
     st_historicalDate := st_historicalDate w;
     st_recentSearches := st_recentSearches w; protocol := protocol w;
     skycast_recent := skycast_recent w; timers := timers w;
     inflight := inflight w; sent := sent w |}.

(** [setUseHistorical(v)] *)
Definition setUseHistorical (v : bool) : Cmd := fun w =>
  {| weatherData := weatherData w; loading := loading w; error := error w;
     lastUpdated := lastUpdated w; st_apiKey := st_apiKey w;
     st_useHistorical := v; st_historicalDate := st_historicalDate w;
     st_recentSearches := st_recentSearches w; protocol := protocol w;
     skycast_recent := skycast_recent w; timers := timers w;
     inflight := inflight w; sent := sent w |}.

(** [setHistoricalDate(v)] *)
Definition setHistoricalDate (v : string) : Cmd := fun w =>
  {| weatherData := weatherData w; loading := loading w; error := error w;
     lastUpdated := lastUpdated w; st_apiKey := st_apiKey w;
     st_useHistorical := st_useHistorical w; st_historicalDate := v;
     st_recentSearches := st_recentSearches w; protocol := protocol w;
     skycast_recent := skycast_recent w; timers := timers w;
     inflight := inflight w; sent := sent w |}.

(** [setRecentSearches(v)] *)
Definition setRecentSearches (v : list string) : Cmd := fun w =>
  {| weatherData := weatherData w; loading := loading w; error := error w;
     lastUpdated := lastUpdated w; st_apiKey := st_apiKey w;
     st_useHistorical := st_useHistorical w;
     st_historicalDate := st_historicalDate w; st_recentSearches := v;
     protocol := protocol w; skycast_recent := skycast_recent w;
     timers := timers w; inflight := inflight w; sent := sent w |}.

(** [localStorage.setItem('skycast_recent', JSON.stringify(v))] *)
Definition localStorage_setItem (v : list string) : Cmd := fun w =>
  {| weatherData := weatherData w; loading := loading w; error := error w;
     lastUpdated := lastUpdated w; st_apiKey := st_apiKey w;
     st_useHistorical := st_useHistorical w;
     st_historicalDate := st_historicalDate w;
     st_recentSearches := st_recentSearches w; protocol := protocol w;
     skycast_recent := v; timers := timers w; inflight := inflight w;
     sent := sent w |}.

(** [setTimeout(callback, delay)]: the callback joins the pending timers. *)
Definition setTimeout (t : Timer) : Cmd := fun w =>
  {| weatherData := weatherData w; loading := loading w; error := error w;
     lastUpdated := lastUpdated w; st_apiKey := st_apiKey w;
     st_useHistorical := st_useHistorical w;
     st_historicalDate := st_historicalDate w;
     st_recentSearches := st_recentSearches w; protocol := protocol w;
     skycast_recent := skycast_recent w; timers := timers w ++ [t];
     inflight := inflight w; sent := sent w |}.

(** The timer at position [i] leaves the queue (it fires). *)
Definition clearTimer (i : nat) : Cmd := fun w =>
  {| weatherData := weatherData w; loading := loading w; error := error w;
     lastUpdated := lastUpdated w; st_apiKey := st_apiKey w;
     st_useHistorical := st_useHistorical w;
     st_historicalDate := st_historicalDate w;
     st_recentSearches := st_recentSearches w; protocol := protocol w;
     skycast_recent := skycast_recent w; timers := delete i (timers w);
     inflight := inflight w; sent := sent w |}.

(** [await axios.get(url, { params })]: the request goes out and the rest of
    the callback waits for the answer. *)
Definition axios_get (k : Pending) : Cmd := fun w =>
  {| weatherData := weatherData w; loading := loading w; error := error w;
     lastUpdated := lastUpdated w; st_apiKey := st_apiKey w;
     st_useHistorical := st_useHistorical w;
     st_historicalDate := st_historicalDate w;
     st_recentSearches := st_recentSearches w; protocol := protocol w;
     skycast_recent := skycast_recent w; timers := timers w;
     inflight := inflight w ++ [k]; sent := sent w ++ [request_of k] |}.

(** The request at position [i] is no longer in flight (it settles). *)
Definition clearPending (i : nat) : Cmd := fun w =>
  {| weatherData := weatherData w; loading := loading w; error := error w;
     lastUpdated := lastUpdated w; st_apiKey := st_apiKey w;
     st_useHistorical := st_useHistorical w;
     st_historicalDate := st_historicalDate w;
     st_recentSearches := st_recentSearches w; protocol := protocol w;
     skycast_recent := skycast_recent w; timers := timers w;
     inflight := delete i (inflight w); sent := sent w |}.

(** The closure of the callback created by a render in state [w]. *)
Definition render (w : World) : Closure :=
  {| apiKey := st_apiKey w; useHistorical := st_useHistorical w;
     historicalDate := st_historicalDate w;
     recentSearches := st_recentSearches w |}.

(** ** [fetchWeather] *)

(** [useHistorical && historicalDate], as a condition. *)
Definition historical (env : Closure) : bool :=
  useHistorical env && Js.truthy (historicalDate env).

(** [const endpoint = useHistorical && historicalDate ? 'historical' : 'current'] *)
Definition endpoint (env : Closure) : string :=
  if historical env then "historical" else "current".

(** [window.location.protocol === 'https:'] *)
Definition secure (protocol : string) : bool := String.eqb protocol "https:".

Section WithRuntime.

Context `{rt : Js.Runtime}.

(** The [url] and the [params] of the call to [axios.get]. *)
Definition request (env : Closure) (protocol searchCity : string) : Request :=
  let cleanKey := Js.trim (apiKey env) in
  let url :=
    if secure protocol then "/api/weather"
    else "http://api.weatherstack.com/" ++ endpoint env in
  let base : gmap string string :=
    <["query" := searchCity]> (<["access_key" := cleanKey]> ∅) in
  let with_mode :=
    if secure protocol then <["endpoint" := endpoint env]> base else base in
  let with_date :=
    if historical env
    then <["interval" := "3"]> (<["hourly" := "1"]>
           (<["historical_date" := historicalDate env]> with_mode))
    else with_mode in
  {| url := url; params := with_date |}.

(** [errorCode === 601 || errorCode === 602 || errorCode === 603 ||
     errorCode === 604] *)
Definition tier_restricted (errorCode : option Z) : bool :=
  match errorCode with
  | Some c => (c =? 601)%Z || (c =? 602)%Z || (c =? 603)%Z || (c =? 604)%Z
  | None => false
  end.

(** [response.data.error.info || response.data.error.type ||
     'City not found or API error.'] *)
Definition errorMsg (e : ApiError) : string :=
  Js.or_else (error_info e)
    (Js.or_else (error_type e) "City not found or API error.").

Definition PREMIUM_RECOVERY : string :=
  "PREMIUM_RECOVERY: Historical logs unavailable on basic tier. Syncing live feed...".

Definition ACCESS_DENIED : string :=
  "ACCESS_DENIED: Invalid authentication key.".

Definition PROXY_UNAVAILABLE : string :=
  "PROXY_UNAVAILABLE: The Vercel API proxy failed to initialize. Verify your deployment build.".

Definition PROTOCOL_ERROR : string :=
  "PROTOCOL_ERROR: WeatherStack requires HTTP entry. Use the Vercel branch for HTTPS access.".

(** [[name, ...recentSearches.filter(c => c !== name)].slice(0, 5)] *)
Definition newRecent (name : string) (recentSearches : list string) : list string :=
  take 5 (name :: filter (fun c => c <> name) recentSearches).

(** The message chosen by the [catch] block. *)
Definition catch_message (protocol : string) (err : AxiosError) : string :=
  if bool_decide (fst <$> err_response err = Some 401%Z) then ACCESS_DENIED
  else if bool_decide (err_code err = Some "ERR_NETWORK") then
    if secure protocol then PROXY_UNAVAILABLE else PROTOCOL_ERROR
  else "INTERFACE_ERROR: " ++ err_message err.

(** The callback from the answer of [axios.get] on: the rest of the [try]
    block, the [catch] block and the [finally] block.  [now] is
    [new Date().toLocaleTimeString()]. *)
Definition fetchWeather_settle
    (env : Closure) (searchCity now : string) (res : AxiosResult) : Cmd :=
  (match res with
   | Resolved _ (Failure e) =>
       (if tier_restricted (error_code e)
        then setError (Some PREMIUM_RECOVERY) >>
             setUseHistorical false >>
             setTimeout {| t_env := env; t_query := searchCity; t_delay := 2000 |}
        else setError (Some ("STATION_RESPONSE: " ++ errorMsg e))) >>
       setWeatherData None
   | Resolved _ (Report d) =>
       let newRecent := newRecent (location_name d) (recentSearches env) in
       setWeatherData (Some d) >>
       setLastUpdated (Some now) >>
       setRecentSearches newRecent >>
       localStorage_setItem newRecent
   | Rejected err =>
       (fun w => setError (Some (catch_message (protocol w) err)) w) >>
       setWeatherData None
   end) >>
  setLoading false.

(** The callback up to [await axios.get]. *)
Definition fetchWeather (env : Closure) (query : string) : Cmd :=
  if negb (Js.truthy query) then skip
  else
    setLoading true >>
    setError None >>
    (fun w =>
       let searchCity := normalize query in
       axios_get {| p_env := env; p_searchCity := searchCity;
                    request_of := request env (protocol w) searchCity |} w).

(** The answer [res] reaches the call waiting at position [i]. *)
Definition settle (i : nat) (res : AxiosResult) (now : string) : Cmd := fun w =>
  match inflight w !! i with
  | Some k =>
      (clearPending i >> fetchWeather_settle (p_env k) (p_searchCity k) now res) w
  | None => w
  end.

(** The timer at position [i] fires. *)
Definition fire (i : nat) : Cmd := fun w =>
  match timers w !! i with
  | Some t => (clearTimer i >> fetchWeather (t_env t) (t_query t)) w
  | None => w
  end.

(** One whole invocation with nothing in between: the call goes out and its
    own answer comes back. *)
Definition invoke (env : Closure) (query : string) (res : AxiosResult)
    (now : string) : Cmd := fun w =>
  if Js.truthy query
  then settle (length (inflight w)) res now (fetchWeather env query w)
  else fetchWeather env query w.

(** ** The component as a transition system

    The user interface calls the callback of the current render; answers and
    timers arrive in any order; the mode switch, the date field and the
    settings dialog change their state cells; a failed geolocation sets the
    error message. *)
Inductive step : World -> World -> Prop :=
| step_call (query : string) (w : World) :
    step w (fetchWeather (render w) query w)
| step_settle (i : nat) (res : AxiosResult) (now : string) (w : World) :
    is_Some (inflight w !! i) ->
    step w (settle i res now w)
| step_fire (i : nat) (w : World) :
    is_Some (timers w !! i) ->
    step w (fire i w)
| step_mode (w : World) :
    step w (setUseHistorical (negb (st_useHistorical w)) w)
| step_date (d : string) (w : World) :
    step w (setHistoricalDate d w)
| step_key (k : string) (w : World) :
    step w (setApiKey k w)
| step_location_failed (w : World) :
    step w (setError (Some "Location protocol failed. Manual entry required.") w).

Inductive reachable (w0 : World) : World -> Prop :=
| reachable_refl : reachable w0 w0
| reachable_step w w' : reachable w0 w -> step w w' -> reachable w0 w'.

End WithRuntime.

(** The component as it mounts: no report, no error, nothing pending. *)
Definition mount (protocol key : string) (recent : list string) : World :=
  {| weatherData := None; loading := false; error := None; lastUpdated := None;
     st_apiKey := key; st_useHistorical := false; st_historicalDate := "";
     st_recentSearches := recent; protocol := protocol;
     skycast_recent := recent; timers := []; inflight := []; sent := [] |}.

(** ** Reading the outcome of a call *)

Inductive TransportRoute := DIRECT | RELAYED.

(** The route a request takes, read off its target. *)
Definition route (r : Request) : TransportRoute :=
  if String.eqb (url r) "/api/weather" then RELAYED else DIRECT.

Inductive ClassifiedOutcome :=
| Success (d : WeatherData)
| RecoverableError (notice : string)
| TerminalError (message : string).

(** The branch of [fetchWeather] an answer takes. *)
Definition classify (protocol : string) (res : AxiosResult) : ClassifiedOutcome :=
  match res with
  | Resolved _ (Failure e) =>
      if tier_restricted (error_code e) then RecoverableError PREMIUM_RECOVERY
      else TerminalError ("STATION_RESPONSE: " ++ errorMsg e)
  | Resolved _ (Report d) => Success d
  | Rejected err => TerminalError (catch_message protocol err)
  end.

(** The body of an answer when it is an explicit failure
    ([success === false]): [response.data] of an answer that resolved, or
    [err.response.data] of an answer that [axios.get] threw (a status outside
    2xx), which the [catch] block does not read. *)
Definition failure_body (res : AxiosResult) : option ApiError :=
  match res with
  | Resolved _ (Failure e) => Some e
  | Resolved _ (Report _) => None
  | Rejected err =>
      match err_response err with
      | Some (_, Failure e) => Some e
      | _ => None
      end
  end.

(** The list of recent searches is short and without repetition. *)
Definition cache_ok (l : list string) : Prop := length l <= 5 /\ NoDup l.

(** Every list of recent searches in play is a good one: the one held by the
    component and the ones captured by the callbacks still to run. *)
Definition caches_ok (w : World) : Prop :=
  cache_ok (st_recentSearches w) /\
  Forall (fun k => cache_ok (recentSearches (p_env k))) (inflight w) /\
  Forall (fun t => cache_ok (recentSearches (t_env t))) (timers w).

(** Exactly one of the report and the error message is held. *)
Definition exactly_one (w : World) : Prop :=
  (is_Some (weatherData w) /\ error w = None) \/
  (weatherData w = None /\ is_Some (error w)).

(** ** Kinds of transitions *)

Section Traces.

Context `{rt : Js.Runtime}.

(** The answer of a call in flight arrives and is a report. *)
Definition report_arrives (w w' : World) : Prop :=
  exists i status d now,
    is_Some (inflight w !! i) /\
    w' = settle i (Resolved status (Report d)) now w.

(** A transition that sets an error message: the answer of a call in flight
    arrives and is not a report, or a geolocation lookup fails. *)
Definition error_arrives (w w' : World) : Prop :=
  (exists i res now,
     is_Some (inflight w !! i) /\
     (forall d, classify (protocol w) res <> Success d) /\
     w' = settle i res now w) \/
  w' = setError (Some "Location protocol failed. Manual entry required.") w.

(** [w'] is reached from [w0] by transitions none of which is among the
    [excluded] ones. *)
Inductive reachable_without (excluded : World -> World -> Prop) (w0 : World) :
    World -> Prop :=
| without_refl : reachable_without excluded w0 w0
| without_step w w' :
    reachable_without excluded w0 w -> step w w' -> ~ excluded w w' ->
    reachable_without excluded w0 w'.

End Traces.

End App.

(** ** The relay ([api/weather.js]) *)

Module Relay.

(** What [res.status(..).json(..)] sends, with the headers set before. *)
Record Response := {
  status : Z;
  headers : gmap string string;
  body : ResponseData
}.

(** The outcome of the handler: the calls made to the weather service and the
    response sent. *)
Record Outcome := {
  calls : list Request;
  response : Response
}.

(** [!v] for a property of [req.query] that may be missing. *)
Definition present (v : option string) : bool :=
  match v with
  | Some s => Js.truthy s
  | None => false
  end.

(** The body [{ success: false, error: { info } }]. *)
Definition failure (info : string) : ResponseData :=
  Failure {| error_code := None; error_info := Some info; error_type := None |}.

Definition cors : gmap string string :=
  <["Access-Control-Allow-Methods" := "GET, OPTIONS"]>
    (<["Access-Control-Allow-Origin" := "*"]> ∅).

(** [module.exports = async (req, res) => ...]: [query] is [req.query] and
    [upstream] answers the call [axios.get(url, { params })]. *)
Definition handler (query : gmap string string)
    (upstream : Request -> AxiosResult) : Outcome :=
  let endpoint := default "current" (query !! "endpoint") in
  let access_key := query !! "access_key" in
  let q := query !! "query" in
  let rest := delete "query" (delete "access_key" (delete "endpoint" query)) in
  if negb (present access_key) || negb (present q) then
    {| calls := [];
       response := {| status := 400; headers := ∅;
                      body := failure "Missing access_key or query parameters." |} |}
  else
    let req :=
      {| url := "http://api.weatherstack.com/" ++ endpoint;
         params := rest ∪ <["query" := default "" q]>
                            (<["access_key" := default "" access_key]> ∅) |} in
    match upstream req with
    | Resolved _ data =>
        {| calls := [req];
           response := {| status := 200; headers := cors; body := data |} |}
    | Rejected error =>
        {| calls := [req];
           response := {| status := 500; headers := ∅;
                          body := failure ("Proxy Error: " ++ err_message error) |} |}
    end.

(** What the weather service itself answered, when it answered: its status and
    its body. *)
Definition upstream_answer (r : AxiosResult) : option (Z * ResponseData) :=
  match r with
  | Resolved st data => Some (st, data)
  | Rejected err => err_response err
  end.

(** The response repeats the answer of the weather service: its status and
    its body, with the cross-origin headers added. *)
Definition mirrors (answer : AxiosResult) (r : Response) : Prop :=
  upstream_answer answer = Some (status r, body r) /\ headers r = cors.

End Relay.

(** ** Sample answers and runs *)

Module Sample.

Import App.

(** An answer with status 401. *)
Definition unauthorized : AxiosResult :=
  Rejected {| err_response :=
                Some (401%Z, Failure {| error_code := None; error_info := None;
                                        error_type := None |});
              err_code := Some "ERR_BAD_REQUEST";
              err_message := "Request failed with status code 401" |}.

(** A report for Rome. *)
Definition rome : AxiosResult :=
  Resolved 200 (Report {| location_name := "Rome"; report := "sunny" |}).

(** The body [{ success: false, error: { code: 603 } }]. *)
Definition tier603 : AxiosResult :=
  Resolved 200 (Failure {| error_code := Some 603%Z; error_info := None;
                           error_type := None |}).

(** The body [{ success: false, error: { code: 602 } }]. *)
Definition tier602 : AxiosResult :=
  Resolved 200 (Failure {| error_code := Some 602%Z; error_info := None;
                           error_type := None |}).

(** U+00A0, the no-break space, in UTF-8. *)
Definition nbsp : string := String "194"%char (String "160"%char "").

(** The city of Zurich in capitals, with U+00DC, and in small letters, with
    U+00FC, in UTF-8. *)
Definition ZURICH : string := String "Z"%char (String "195"%char (String "156"%char "RICH")).

Definition zurich : string := String "z"%char (String "195"%char (String "188"%char "rich")).

(** A report for Paris. *)
Definition paris : AxiosResult :=
  Resolved 200 (Report {| location_name := "Paris"; report := "cloudy" |}).

(** What [axios.get] throws in the page when the relay answers a request
    without a query: status 400 and the relay's own failure body. *)
Definition relay400 : AxiosResult :=
  Rejected {| err_response :=
                Some (400%Z, Relay.failure "Missing access_key or query parameters.");
              err_code := Some "ERR_BAD_REQUEST";
              err_message := "Request failed with status code 400" |}.

(** What [axios.get] throws when the body [{ success: false, error: { code:
    603 } }] comes with status 403. *)
Definition forbidden603 : AxiosResult :=
  Rejected {| err_response :=
                Some (403%Z, Failure {| error_code := Some 603%Z; error_info := None;
                                        error_type := None |});
              err_code := Some "ERR_BAD_REQUEST";
              err_message := "Request failed with status code 403" |}.

(** The page loaded over HTTP, switched to the archive with a date chosen. *)
Definition archive : World :=
  setHistoricalDate "2024-01-01" (setUseHistorical true (mount "http:" "key" [])).

(** The retry scheduled by a call made in [archive]. *)
Definition retry : Timer :=
  {| t_env := render archive; t_query := "london"; t_delay := 2000 |}.

Section WithRuntime.

Context `{rt : Js.Runtime}.

(** The first timer fires and the weather service answers its request the way
    it answered the first one. *)
Definition retry_round (w : World) : World :=
  settle 0 tier603 "10:00:02" (fire 0 w).

End WithRuntime.

End Sample.

(** ** The earlier revisions of [fetchWeather] *)

(** The revision before the relay: the request always goes to the weather
    service, and the [catch] block has one text for network errors. *)
Module Direct.

Import App.
Local Open Scope cmd_scope.

Section WithRuntime.

Context `{rt : Js.Runtime}.

(** The [url] and the [params] of the call to [axios.get]. *)
Definition request (env : Closure) (searchCity : string) : Request :=
  let cleanKey := Js.trim (apiKey env) in
  let url := "http://api.weatherstack.com/" ++ endpoint env in
  let base : gmap string string :=
    <["query" := searchCity]> (<["access_key" := cleanKey]> ∅) in
  let with_date :=
    if historical env
    then <["interval" := "3"]> (<["hourly" := "1"]>
           (<["historical_date" := historicalDate env]> base))
    else base in
  {| url := url; params := with_date |}.

Definition PROTOCOL_ERROR : string :=
  "PROTOCOL_ERROR: WeatherStack requires HTTP entry. Access denied over HTTPS.".

(** The message chosen by the [catch] block. *)
Definition catch_message (err : AxiosError) : string :=
  if bool_decide (fst <$> err_response err = Some 401%Z) then ACCESS_DENIED
  else if bool_decide (err_code err = Some "ERR_NETWORK") then PROTOCOL_ERROR
  else "INTERFACE_ERROR: " ++ err_message err.

(** The callback from the answer of [axios.get] on. *)
Definition fetchWeather_settle
    (env : Closure) (searchCity now : string) (res : AxiosResult) : Cmd :=
  (match res with
   | Resolved _ (Failure e) =>
       (if tier_restricted (error_code e)
        then setError (Some PREMIUM_RECOVERY) >>
             setUseHistorical false >>
             setTimeout {| t_env := env; t_query := searchCity; t_delay := 2000 |}
        else setError (Some ("STATION_RESPONSE: " ++ errorMsg e))) >>
       setWeatherData None
   | Resolved _ (Report d) =>
       let newRecent := newRecent (location_name d) (recentSearches env) in
       setWeatherData (Some d) >>
       setLastUpdated (Some now) >>
       setRecentSearches newRecent >>
       localStorage_setItem newRecent
   | Rejected err =>
       setError (Some (catch_message err)) >>
       setWeatherData None
   end) >>
  setLoading false.

(** The callback up to [await axios.get]. *)
Definition fetchWeather (env : Closure) (query : string) : Cmd :=
  if negb (Js.truthy query) then skip
  else
    setLoading true >>
    setError None >>
    (let searchCity := normalize query in
     axios_get {| p_env := env; p_searchCity := searchCity;
                  request_of := request env searchCity |}).

End WithRuntime.

End Direct.

(** The first revision: no retry and no list of recent searches; the [catch]
    block prefers the message of the server. *)
Module SkyCast.

Import App.
Local Open Scope cmd_scope.

Section WithRuntime.

Context `{rt : Js.Runtime}.

Definition DENIED : string :=
  "DENIED (401): API key is invalid/expired. Check your WeatherStack account.".

Definition MALFORMED : string :=
  "MALFORMED (400): The server rejected the request structure. Ensure the API key is active.".

Definition UPSTREAM_FAILURE : string :=
  "UPSTREAM_FAILURE: WeatherStack Free only supports HTTP. Ensure you are visiting http://localhost:5173 (not https).".

(** [err.response?.data?.error?.info || err.response?.data?.error?.type],
    followed by [|| err.message]. *)
Definition serverMsg_or (err : AxiosError) : string :=
  match err_response err with
  | Some (_, Failure e) =>
      Js.or_else (error_info e) (Js.or_else (error_type e) (err_message err))
  | _ => err_message err
  end.

(** The message chosen by the [catch] block. *)
Definition catch_message (err : AxiosError) : string :=
  if bool_decide (fst <$> err_response err = Some 401%Z) then DENIED
  else if bool_decide (fst <$> err_response err = Some 400%Z) then MALFORMED
  else if bool_decide (err_code err = Some "ERR_NETWORK") then UPSTREAM_FAILURE
  else "INTERFACE_ERROR: " ++ serverMsg_or err.

(** The callback from the answer of [axios.get] on. *)
Definition fetchWeather_settle (now : string) (res : AxiosResult) : Cmd :=
  (match res with
   | Resolved _ (Failure e) =>
       setError (Some ("STATION_RESPONSE: " ++ errorMsg e)) >>
       setWeatherData None
   | Resolved _ (Report d) =>
       setWeatherData (Some d) >>
       setLastUpdated (Some now)
   | Rejected err =>
       setError (Some (catch_message err)) >>
       setWeatherData None
   end) >>
  setLoading false.

(** The callback up to [await axios.get]. *)
Definition fetchWeather (env : Closure) (query : string) : Cmd :=
  if negb (Js.truthy query) then skip
  else
    setLoading true >>
    setError None >>
    (let searchCity := normalize query in
     axios_get {| p_env := env; p_searchCity := searchCity;
                  request_of := Direct.request env searchCity |}).

End WithRuntime.

End SkyCast.

(** ** What the page shows *)

Module Display.

Section WithRuntime.

Context `{rt : Js.Runtime}.

(** [s.includes(sub)] *)
Fixpoint includes (s sub : string) : bool :=
  String.prefix sub s ||
  match s with
  | EmptyString => false
  | String _ r => includes r sub
  end.

(** The three tests [getThemeClass] and [getLogoClass] make on the lowercased
    description. *)
Definition sunny (desc : string) : bool :=
  includes desc "sun" || includes desc "clear".

Definition cloudy (desc : string) : bool :=
  includes desc "cloud" || includes desc "overcast".

Definition rainy (desc : string) : bool :=
  includes desc "rain" || includes desc "drizzle".

(** [getThemeClass]: [descriptions] is [weatherData.current.weather_descriptions]
    when a report is held; the result is missing when the array is empty
    (reading [toLowerCase] of [undefined] throws). *)
Definition getThemeClass (descriptions : option (list string)) : option string :=
  match descriptions with
  | None => Some "theme-default"
  | Some [] => None
  | Some (d :: _) =>
      let desc := Js.toLowerCase d in
      if includes desc "sun" || includes desc "clear" then Some "theme-sunny"
      else if includes desc "cloud" || includes desc "overcast" then Some "theme-cloudy"
      else if includes desc "rain" || includes desc "drizzle" then Some "theme-rainy"
      else Some "theme-default"
  end.

(** [getLogoClass] *)
Definition getLogoClass (descriptions : option (list string)) : option string :=
  match descriptions with
  | None => Some ""
  | Some [] => None
  | Some (d :: _) =>
      let desc := Js.toLowerCase d in
      if includes desc "sun" || includes desc "clear" then Some "logo-glow-sunny"
      else if includes desc "rain" || includes desc "drizzle" then Some "logo-glow-rainy"
      else if includes desc "cloud" || includes desc "overcast" then Some "logo-glow-cloudy"
      else Some ""
  end.

(** The glow that goes with a theme. *)
Definition glow_of_theme (theme : string) : string :=
  if String.eqb theme "theme-sunny" then "logo-glow-sunny"
  else if String.eqb theme "theme-cloudy" then "logo-glow-cloudy"
  else if String.eqb theme "theme-rainy" then "logo-glow-rainy"
  else "".

Definition CORE_ALERT : string :=
  "CORE ALERT: Critical thermal surge detected. Solar intensity at peak thresholds. Seek climate-shielded environments immediately.".

Definition THERMAL_WARNING : string :=
  "THERMAL WARNING: Environment cooling rapidly. Kinetic output will be reduced. Initiate progressive thermal insulation protocols.".

Definition KINETIC_NOTICE : string :=
  "KINETIC NOTICE: High-velocity atmospheric currents active. Secure all external structural elements. Flight paths restricted.".

Definition SATURATION_ALERT : string :=
  "SATURATION ALERT: Extreme moisture density. Interface precision may be compromised by heavy oxidation.".

Definition STABILITY_ACHIEVED : string :=
  "STABILITY ACHIEVED: Atmospheric equilibrium established. Nominal conditions for prolonged external deployment and primary operations.".

(** [getAdvice] of [AIAdvice], on the whole-number measurements the weather
    service reports. *)
Definition getAdvice (temperature wind_speed humidity : Z) : string :=
  if (32 <? temperature)%Z then CORE_ALERT
  else if (temperature <? 10)%Z then THERMAL_WARNING
  else if (30 <? wind_speed)%Z then KINETIC_NOTICE
  else if (80 <? humidity)%Z then SATURATION_ALERT
  else STABILITY_ACHIEVED.

End WithRuntime.

End Display.

(** ** The position of the user ([getUserLocation]) *)

Module Locate.

Import App.

Section WithRuntime.

Context `{rt : Js.Runtime}.

(** What the browser offers: no [navigator.geolocation] at all, a position
    (the two coordinates as the template literal prints them), or a failure. *)
Inductive Geolocation :=
| Unsupported
| Position (latitude longitude : string)
| Denied.

(** [getUserLocation], with the callback of the current render. *)
Definition getUserLocation (g : Geolocation) : Cmd := fun w =>
  match g with
  | Unsupported => w
  | Position latitude longitude =>
      fetchWeather (render w) (latitude ++ "," ++ longitude) w
  | Denied =>
      setError (Some "Location protocol failed. Manual entry required.") w
  end.

(** The characters of a printed number: digits, sign, point and exponent. *)
Definition numeric (c : ascii) : bool :=
  match N_of_ascii c with
  | 43%N | 45%N | 46%N | 101%N => true
  | n => (48 <=? n)%N && (n <=? 57)%N
  end.

Fixpoint printed_number (s : string) : bool :=
  match s with
  | EmptyString => true
  | String c r => numeric c && printed_number r
  end.

(** A string whose characters are neither white space nor capitals. *)
Fixpoint plain (s : string) : bool :=
  match s with
  | EmptyString => true
  | String c r =>
      negb (Ascii7.isWhiteSpace c) && Ascii.eqb (Ascii7.lowerChar c) c && plain r
  end.

End WithRuntime.

End Locate.

(** ** The refresh timer (the [useEffect] of [App]) *)

Module Refresh.

Import App.

Section WithRuntime.

Context `{rt : Js.Runtime}.

(** A callback registered with [setInterval]:
    [() => fetchWeather(weatherData.location.name)], with its period. *)
Record Interval := {
  i_id : nat;
  i_env : Closure;
  i_query : string;
  i_period : Z
}.

(** The intervals of the browser, the next identifier it hands out, and the
    cleanup function of the effect: [None] before the effect ever ran and
    after the component is gone, [Some interval] afterwards, where [interval]
    is the local variable the cleanup closes over ([undefined] when no
    interval was set). *)
Record Page := {
  intervals : list Interval;
  next_id : nat;
  cleanup : option (option nat)
}.

Definition fresh : Page := {| intervals := []; next_id := 0; cleanup := None |}.

(** [clearInterval(interval)]; clearing [undefined] does nothing. *)
Definition clearInterval (interval : option nat) (p : Page) : Page :=
  match interval with
  | Some id =>
      {| intervals := filter (fun i => i_id i <> id) (intervals p);
         next_id := next_id p; cleanup := cleanup p |}
  | None => p
  end.

(** The body of the effect. *)
Definition effect (autoRefresh : bool) (weatherData : option WeatherData)
    (env : Closure) (p : Page) : Page :=
  match weatherData with
  | Some d =>
      if autoRefresh then
        {| intervals := intervals p ++
             [{| i_id := next_id p; i_env := env; i_query := location_name d;
                 i_period := 300000 |}];
           next_id := S (next_id p);
           cleanup := Some (Some (next_id p)) |}
      else {| intervals := intervals p; next_id := next_id p; cleanup := Some None |}
  | None => {| intervals := intervals p; next_id := next_id p; cleanup := Some None |}
  end.

(** The cleanup of the previous run, if there was one. *)
Definition run_cleanup (p : Page) : Page :=
  match cleanup p with
  | Some interval =>
      {| intervals := intervals (clearInterval interval p);
         next_id := next_id p; cleanup := None |}
  | None => p
  end.

(** A commit after which the effect runs: first the old cleanup, then the
    body with the values of the new render. *)
Definition commit (autoRefresh : bool) (weatherData : option WeatherData)
    (env : Closure) (p : Page) : Page :=
  effect autoRefresh weatherData env (run_cleanup p).

(** A history of commits, the oldest first. *)
Fixpoint commits (h : list (bool * option WeatherData * Closure)) (p : Page) : Page :=
  match h with
  | [] => p
  | (autoRefresh, weatherData, env) :: h' =>
      commits h' (commit autoRefresh weatherData env p)
  end.

(** The callback of an interval runs. *)
Definition tick (i : Interval) : Cmd := fetchWeather (i_env i) (i_query i).

(** The intervals registered are the one the last cleanup knows, if any. *)
Definition tidy (p : Page) : Prop :=
  match cleanup p with
  | Some (Some id) => exists i, intervals p = [i] /\ i_id i = id
  | _ => intervals p = []
  end.

End WithRuntime.

End Refresh.

(** ** The string methods on ASCII strings: facts *)

Section JsFacts.

Import Js Ascii7.

Lemma lowerChar_idem c : lowerChar (lowerChar c) = lowerChar c.
Proof. destruct c as [[] [] [] [] [] [] [] []]; reflexivity. Qed.

Lemma lowerChar_upperChar c : lowerChar (upperChar c) = lowerChar c.
Proof. destruct c as [[] [] [] [] [] [] [] []]; reflexivity. Qed.

Lemma isWhiteSpace_lowerChar c : isWhiteSpace (lowerChar c) = isWhiteSpace c.
Proof. destruct c as [[] [] [] [] [] [] [] []]; reflexivity. Qed.

Lemma toLowerCase_idem s : toLowerCase (toLowerCase s) = toLowerCase s.
Proof.
  induction s as [|c r IH]; simpl; [reflexivity|].
  now rewrite lowerChar_idem, IH.
Qed.

Lemma toLowerCase_toUpperCase s : toLowerCase (toUpperCase s) = toLowerCase s.
Proof.
  induction s as [|c r IH]; simpl; [reflexivity|].
  now rewrite lowerChar_upperChar, IH.
Qed.

Lemma toLowerCase_empty s : toLowerCase s = "" -> s = "".
Proof. destruct s; simpl; [reflexivity|discriminate]. Qed.

Lemma trimStart_lower s : trimStart (toLowerCase s) = toLowerCase (trimStart s).
Proof.
  induction s as [|c r IH]; simpl; [reflexivity|].
  rewrite isWhiteSpace_lowerChar. destruct (isWhiteSpace c); [exact IH|reflexivity].
Qed.

Lemma trimEnd_lower s : trimEnd (toLowerCase s) = toLowerCase (trimEnd s).
Proof.
  induction s as [|c r IH]; simpl; [reflexivity|].
  rewrite IH, isWhiteSpace_lowerChar.
  destruct (trimEnd r) as [|d r'] eqn:E; simpl.
  - destruct (isWhiteSpace c); reflexivity.
  - reflexivity.
Qed.

Lemma trim_lower s : trim (toLowerCase s) = toLowerCase (trim s).
Proof. unfold trim. now rewrite trimStart_lower, trimEnd_lower. Qed.

(** The first character of a non-empty [trimStart] is not white space. *)
Lemma trimStart_head s c r : trimStart s = String c r -> isWhiteSpace c = false.
Proof.
  induction s as [|d t IH]; simpl; [discriminate|].
  destruct (isWhiteSpace d) eqn:E; [exact IH|].
  intros [= <- <-]. exact E.
Qed.

Lemma trimStart_fix s :
  match s with String c _ => isWhiteSpace c = false | EmptyString => True end ->
  trimStart s = s.
Proof. destruct s as [|c r]; simpl; [reflexivity|]. now intros ->. Qed.

Lemma trimEnd_idem s : trimEnd (trimEnd s) = trimEnd s.
Proof.
  induction s as [|c r IH]; simpl; [reflexivity|].
  destruct (trimEnd r) as [|d r'] eqn:E.
  - destruct (isWhiteSpace c) eqn:W; simpl; [reflexivity|now rewrite W].
  - simpl in *. now rewrite IH.
Qed.

(** [trimEnd] keeps the first character of a string that does not start
    with white space. *)
Lemma trimEnd_head c r :
  isWhiteSpace c = false -> exists r', trimEnd (String c r) = String c r'.
Proof.
  intros W. simpl. destruct (trimEnd r) as [|d r'']; rewrite ?W; eauto.
Qed.

Lemma trim_idem s : trim (trim s) = trim s.
Proof.
  unfold trim. destruct (trimStart s) as [|c r] eqn:E.
  - reflexivity.
  - pose proof (trimStart_head _ _ _ E) as W.
    destruct (trimEnd_head c r W) as [r' Hr']. rewrite Hr'.
    rewrite trimStart_fix by exact W. rewrite <- Hr'. apply trimEnd_idem.
Qed.

Lemma trimStart_blank_app ws s : blank ws = true -> trimStart (ws ++ s) = trimStart s.
Proof.
  induction ws as [|c r IH]; simpl; [reflexivity|].
  intros [W B]%andb_prop. now rewrite W, IH.
Qed.

Lemma trimEnd_blank ws : blank ws = true -> trimEnd ws = "".
Proof.
  induction ws as [|c r IH]; simpl; [reflexivity|].
  intros [W B]%andb_prop. now rewrite IH, W.
Qed.

Lemma trimEnd_app_blank s ws : blank ws = true -> trimEnd (s ++ ws) = trimEnd s.
Proof.
  intros B. induction s as [|c r IH]; simpl.
  - now apply trimEnd_blank.
  - now rewrite IH.
Qed.

Lemma trimStart_blank ws : blank ws = true -> trimStart ws = "".
Proof.
  induction ws as [|c r IH]; simpl; [reflexivity|].
  intros [W B]%andb_prop. now rewrite W, IH.
Qed.

Lemma blank_app s t : blank (s ++ t) = blank s && blank t.
Proof.
  induction s as [|c r IH]; simpl; [reflexivity|].
  now rewrite IH, andb_assoc.
Qed.

Lemma trimStart_app s t :
  blank s = false -> trimStart (s ++ t) = trimStart s ++ t.
Proof.
  induction s as [|c r IH]; simpl; [discriminate|].
  destruct (isWhiteSpace c); simpl; [exact IH|reflexivity].
Qed.

(** Surrounding white space does not survive [trim]. *)
Lemma trim_surround ws1 s ws2 :
  blank ws1 = true -> blank ws2 = true -> trim (ws1 ++ s ++ ws2) = trim s.
Proof.
  intros B1 B2. unfold trim. rewrite trimStart_blank_app by exact B1.
  destruct (blank s) eqn:Bs.
  - rewrite !trimStart_blank; [reflexivity|exact Bs|].
    now rewrite blank_app, Bs, B2.
  - rewrite trimStart_app by exact Bs. now apply trimEnd_app_blank.
Qed.

Lemma trim_blank s : blank s = true -> trim s = "".
Proof. intros B. unfold trim. now rewrite trimStart_blank. Qed.

(** Conversely, a string whose trimmed form is empty is blank. *)
Lemma trimEnd_empty s : trimEnd s = "" -> blank s = true.
Proof.
  induction s as [|c r IH]; simpl; [reflexivity|].
  destruct (trimEnd r) as [|d r'] eqn:E; [|discriminate].
  destruct (isWhiteSpace c); [intros _; now apply IH|discriminate].
Qed.

Lemma trim_empty s : trim s = "" -> blank s = true.
Proof.
  unfold trim. induction s as [|c r IH]; simpl; [reflexivity|].
  destruct (isWhiteSpace c) eqn:W.
  - exact IH.
  - intros H. destruct (trimEnd_head c r W) as [r' Hr'].
    rewrite Hr' in H. discriminate.
Qed.

(** Strings of ASCII characters. *)
Lemma isWhiteSpace_ascii c : isWhiteSpace c = true -> (N_of_ascii c <? 128)%N = true.
Proof. destruct c as [[] [] [] [] [] [] [] []]; simpl; intros H; now try discriminate H. Qed.

Lemma blank_ascii s : blank s = true -> ascii_only s = true.
Proof.
  induction s as [|c r IH]; simpl; [reflexivity|].
  intros [W B]%andb_prop. now rewrite (isWhiteSpace_ascii _ W), IH.
Qed.

Lemma ascii_only_app s t : ascii_only (s ++ t) = ascii_only s && ascii_only t.
Proof.
  induction s as [|c r IH]; simpl; [reflexivity|].
  now rewrite IH, andb_assoc.
Qed.

Lemma ascii_only_trimStart s : ascii_only s = true -> ascii_only (trimStart s) = true.
Proof.
  induction s as [|c r IH]; simpl; [reflexivity|].
  intros H. destruct (isWhiteSpace c); [|exact H].
  apply andb_prop in H as [_ H]. now apply IH.
Qed.

Lemma ascii_only_trimEnd s : ascii_only s = true -> ascii_only (trimEnd s) = true.
Proof.
  induction s as [|c r IH]; simpl; [reflexivity|].
  intros [Hc Hr]%andb_prop. specialize (IH Hr).
  destruct (trimEnd r) as [|d r'].
  - destruct (isWhiteSpace c); simpl; [reflexivity|now rewrite Hc].
  - simpl in *. now rewrite Hc, IH.
Qed.

Lemma ascii_only_trim s : ascii_only s = true -> ascii_only (trim s) = true.
Proof. intros H. now apply ascii_only_trimEnd, ascii_only_trimStart. Qed.

End JsFacts.

(** The functions of [Ascii7] have the laws asked of a runtime. *)
Lemma ascii_lawful : Js.Lawful ascii_runtime.
Proof.
  split; simpl.
  - apply trim_idem.
  - apply toLowerCase_idem.
  - apply trim_lower.
  - intros ws1 s ws2 H1 H2. apply trim_surround; now apply trim_empty.
  - reflexivity.
  - reflexivity.
Qed.

(** ** The runtime on Latin-1 text *)

Section Latin1Facts.

Import Latin1.

Implicit Types (s : string) (l : list Char) (ch : Char) (c d : ascii).

Lemma decode_cases (P : string -> Prop) :
  P "" -> (forall c, P (String c "")) ->
  (forall c d r, is_lead c && is_cont d = true -> P r -> P (String c (String d r))) ->
  (forall c d r, is_lead c && is_cont d = false -> P (String d r) ->
                 P (String c (String d r))) ->
  forall s, P s.
Proof.
  intros H0 H1 H2 H3.
  assert (H : forall s, P s /\ forall c, P (String c s)).
  { induction s as [|d r [IH1 IH2]].
    - split; [exact H0|exact H1].
    - split; [apply IH2|]. intros c. destruct (is_lead c && is_cont d) eqn:E.
      + now apply H2.
      + apply H3; [exact E|apply IH2]. }
  intros s. apply H.
Qed.

Lemma decode_pair c d r :
  is_lead c && is_cont d = true -> decode (String c (String d r)) = Two c d :: decode r.
Proof. intros E. simpl. now rewrite E. Qed.

Lemma decode_single c d r :
  is_lead c && is_cont d = false ->
  decode (String c (String d r)) = One c :: decode (String d r).
Proof. intros E. cbn [decode]. now rewrite E. Qed.

Lemma decode_not_lead c r : is_lead c = false -> decode (String c r) = One c :: decode r.
Proof. intros E. destruct r as [|d r]; [reflexivity|]. apply decode_single. now rewrite E. Qed.

Lemma decode_not_cont c d r :
  is_cont d = false -> decode (String c (String d r)) = One c :: decode (String d r).
Proof. intros E. apply decode_single. rewrite E. apply andb_false_r. Qed.

Lemma encode_decode s : encode (decode s) = s.
Proof.
  induction s as [| |c d r E IH|c d r E IH] using decode_cases.
  - reflexivity.
  - reflexivity.
  - rewrite (decode_pair _ _ _ E). simpl. now rewrite IH.
  - rewrite (decode_single _ _ _ E). cbn [encode encode1]. now rewrite IH.
Qed.

Lemma starts_cont_decode d r : starts_cont (decode (String d r)) = is_cont d.
Proof.
  destruct r as [|e r]; [reflexivity|]. cbn [decode].
  destruct (is_lead d && is_cont e); reflexivity.
Qed.

Lemma wf_decode s : wf (decode s) = true.
Proof.
  induction s as [| |c d r E IH|c d r E IH] using decode_cases.
  - reflexivity.
  - simpl. now rewrite andb_false_r.
  - rewrite (decode_pair _ _ _ E). simpl. now rewrite E, IH.
  - rewrite (decode_single _ _ _ E). cbn [wf].
    now rewrite starts_cont_decode, E, IH.
Qed.

Lemma encode_cons ch l : encode (ch :: l) = String (first_byte ch) (match ch with One _ => encode l | Two _ b => String b (encode l) end).
Proof. destruct ch; reflexivity. Qed.

Lemma decode_encode l : wf l = true -> decode (encode l) = l.
Proof.
  induction l as [|ch r IH]; [reflexivity|]. destruct ch as [c|a b]; cbn [wf].
  - intros [N W]%andb_prop. apply negb_true_iff in N.
    destruct r as [|x r']; [reflexivity|].
    change (encode (One c :: x :: r')) with (String c (encode (x :: r'))).
    rewrite (encode_cons x r'), decode_single by exact N.
    rewrite <- encode_cons. now rewrite IH.
  - intros [E W]%andb_prop. cbn [encode encode1]. rewrite decode_pair by exact E.
    now rewrite IH.
Qed.

Lemma encode_nil l : encode l = "" -> l = [].
Proof. destruct l as [|[c|a b] r]; [reflexivity|discriminate|discriminate]. Qed.

(** *** Well-formed lists *)

Lemma wf_tail ch l : wf (ch :: l) = true -> wf l = true.
Proof. destruct ch; cbn [wf]; now intros [_ H]%andb_prop. Qed.

Lemma wf_single ch l : wf (ch :: l) = true -> wf [ch] = true.
Proof.
  destruct ch as [c|a b]; cbn [wf]; intros [H _]%andb_prop.
  - simpl. now rewrite andb_false_r.
  - now rewrite H.
Qed.

Lemma wf_cons_same ch x l l' :
  wf (ch :: x :: l) = true -> wf (x :: l') = true -> wf (ch :: x :: l') = true.
Proof.
  destruct ch as [c|a b]; cbn [wf]; intros [H _]%andb_prop W.
  - cbn [wf] in W. rewrite andb_true_iff. split; [exact H|exact W].
  - cbn [wf] in W. rewrite andb_true_iff. split; [exact H|exact W].
Qed.

Lemma wf_dropStart l : wf l = true -> wf (dropStart l) = true.
Proof.
  induction l as [|ch r IH]; [reflexivity|]. intros W. simpl.
  destruct (isWhiteSpace ch); [|exact W]. apply IH. now apply wf_tail in W.
Qed.

Lemma dropEnd_head l x l' : dropEnd l = x :: l' -> exists t, l = x :: t.
Proof.
  destruct l as [|ch r]; [discriminate|]. simpl.
  destruct (dropEnd r) as [|y r'].
  - destruct (isWhiteSpace ch); [discriminate|]. intros [= <- <-]. eauto.
  - intros [= <- <-]. eauto.
Qed.

Lemma wf_dropEnd l : wf l = true -> wf (dropEnd l) = true.
Proof.
  induction l as [|ch r IH]; [reflexivity|]. intros W. simpl.
  pose proof (IH (wf_tail _ _ W)) as Wr.
  destruct (dropEnd r) as [|x r'] eqn:E.
  - destruct (isWhiteSpace ch); [reflexivity|]. now apply wf_single in W.
  - destruct (dropEnd_head _ _ _ E) as [t ->]. now apply wf_cons_same with t.
Qed.

(** *** Lowercasing *)

Lemma lowerChar_first ch : first_byte (lowerChar ch) = first_byte ch \/
  exists c, ch = One c /\ first_byte (lowerChar ch) = Ascii7.lowerChar c.
Proof.
  destruct ch as [c|a b]; simpl; [right; eauto|left].
  destruct (_ && _); reflexivity.
Qed.

Lemma is_cont_lower c : is_cont (Ascii7.lowerChar c) = is_cont c.
Proof. destruct c as [[] [] [] [] [] [] [] []]; reflexivity. Qed.

Lemma is_lead_lower c : is_lead (Ascii7.lowerChar c) = is_lead c.
Proof. destruct c as [[] [] [] [] [] [] [] []]; reflexivity. Qed.

Lemma starts_cont_lower l : starts_cont (map lowerChar l) = starts_cont l.
Proof.
  destruct l as [|[c|a b] r]; [reflexivity| |].
  - simpl. apply is_cont_lower.
  - simpl. destruct (_ && _); reflexivity.
Qed.

Lemma lowerChar_two a b :
  exists b', lowerChar (Two a b) = Two a b' /\ is_cont b' = is_cont b /\
    lowerChar (Two a b') = Two a b'.
Proof.
  unfold lowerChar. set (t := (N_of_ascii a =? 195)%N).
  destruct b as [[] [] [] [] [] [] [] []]; destruct t; simpl;
    eexists; (split; [reflexivity|split; reflexivity]).
Qed.

Lemma wf_lower l : wf l = true -> wf (map lowerChar l) = true.
Proof.
  induction l as [|ch r IH]; [reflexivity|]. intros W.
  pose proof (IH (wf_tail _ _ W)) as Wr. destruct ch as [c|a b].
  - cbn [wf] in W. apply andb_prop in W as [N _].
    cbn [map lowerChar wf]. now rewrite starts_cont_lower, is_lead_lower, N, Wr.
  - cbn [wf] in W. apply andb_prop in W as [[La Cb]%andb_prop _].
    destruct (lowerChar_two a b) as (b' & E & C & _). cbn [map]. rewrite E.
    cbn [wf]. now rewrite La, C, Cb, Wr.
Qed.

Lemma latin1_lowerChar_idem ch : lowerChar (lowerChar ch) = lowerChar ch.
Proof.
  destruct ch as [c|a b].
  - simpl. now rewrite lowerChar_idem.
  - destruct (lowerChar_two a b) as (b' & E & _ & F). now rewrite E, F.
Qed.

Lemma latin1_isWhiteSpace_lowerChar ch : isWhiteSpace (lowerChar ch) = isWhiteSpace ch.
Proof.
  destruct ch as [c|a b].
  - simpl. apply isWhiteSpace_lowerChar.
  - unfold lowerChar. destruct (N_of_ascii a =? 195)%N eqn:A; [|reflexivity].
    cbn [andb]. destruct (_ && _); [|reflexivity].
    apply N.eqb_eq in A. simpl. now rewrite A.
Qed.

Lemma dropStart_lower l : dropStart (map lowerChar l) = map lowerChar (dropStart l).
Proof.
  induction l as [|ch r IH]; [reflexivity|]. cbn [map dropStart].
  rewrite latin1_isWhiteSpace_lowerChar. destruct (isWhiteSpace ch); [exact IH|reflexivity].
Qed.

Lemma dropEnd_lower l : dropEnd (map lowerChar l) = map lowerChar (dropEnd l).
Proof.
  induction l as [|ch r IH]; [reflexivity|]. cbn [map dropEnd].
  rewrite IH, latin1_isWhiteSpace_lowerChar.
  destruct (dropEnd r) as [|x r']; cbn [map].
  - destruct (isWhiteSpace ch); reflexivity.
  - reflexivity.
Qed.

(** *** Trimming *)

Lemma dropStart_head l x l' : dropStart l = x :: l' -> isWhiteSpace x = false.
Proof.
  induction l as [|ch r IH]; [discriminate|]. simpl.
  destruct (isWhiteSpace ch) eqn:E; [exact IH|]. intros [= <- <-]. exact E.
Qed.

Lemma dropEnd_idem l : dropEnd (dropEnd l) = dropEnd l.
Proof.
  induction l as [|ch r IH]; [reflexivity|]. simpl.
  destruct (dropEnd r) as [|x r'] eqn:E.
  - destruct (isWhiteSpace ch) eqn:W; simpl; [reflexivity|now rewrite W].
  - cbn [dropEnd]. cbn [dropEnd] in IH. now rewrite IH.
Qed.

Lemma dropEnd_keeps_head x l :
  isWhiteSpace x = false -> exists l', dropEnd (x :: l) = x :: l'.
Proof.
  intros W. simpl. destruct (dropEnd l) as [|y r]; rewrite ?W; eauto.
Qed.

Lemma strip_idem l :
  dropEnd (dropStart (dropEnd (dropStart l))) = dropEnd (dropStart l).
Proof.
  destruct (dropStart l) as [|x r] eqn:E; [reflexivity|].
  pose proof (dropStart_head _ _ _ E) as W.
  destruct (dropEnd_keeps_head x r W) as [r' Hr']. rewrite Hr'.
  cbn [dropStart]. rewrite W. rewrite <- Hr'. apply dropEnd_idem.
Qed.

Lemma dropStart_ws_app W l :
  forallb isWhiteSpace W = true -> dropStart (W ++ l)%list = dropStart l.
Proof.
  induction W as [|x W' IH]; [reflexivity|]. simpl.
  intros [Hx HW]%andb_prop. now rewrite Hx, IH.
Qed.

Lemma dropEnd_ws W : forallb isWhiteSpace W = true -> dropEnd W = [].
Proof.
  induction W as [|x W' IH]; [reflexivity|]. simpl.
  intros [Hx HW]%andb_prop. now rewrite IH, Hx.
Qed.

Lemma dropEnd_app_ws l W :
  forallb isWhiteSpace W = true -> dropEnd (l ++ W)%list = dropEnd l.
Proof.
  intros HW. induction l as [|ch r IH]; simpl.
  - now apply dropEnd_ws.
  - now rewrite IH.
Qed.

Lemma dropStart_ws W : forallb isWhiteSpace W = true -> dropStart W = [].
Proof.
  induction W as [|x W' IH]; [reflexivity|]. simpl.
  intros [Hx HW]%andb_prop. now rewrite Hx, IH.
Qed.

Lemma dropStart_app l t :
  forallb isWhiteSpace l = false -> dropStart (l ++ t)%list = (dropStart l ++ t)%list.
Proof.
  induction l as [|ch r IH]; [discriminate|]. simpl.
  destruct (isWhiteSpace ch); simpl; [exact IH|reflexivity].
Qed.

Lemma strip_around W1 l W2 :
  forallb isWhiteSpace W1 = true -> forallb isWhiteSpace W2 = true ->
  dropEnd (dropStart (W1 ++ l ++ W2)%list) = dropEnd (dropStart l).
Proof.
  intros H1 H2. rewrite dropStart_ws_app by exact H1.
  destruct (forallb isWhiteSpace l) eqn:E.
  - rewrite !dropStart_ws; [reflexivity|exact E|].
    rewrite forallb_app. now rewrite E, H2.
  - rewrite dropStart_app by exact E. now apply dropEnd_app_ws.
Qed.

Lemma dropEnd_nil l : dropEnd l = [] -> forallb isWhiteSpace l = true.
Proof.
  induction l as [|ch r IH]; [reflexivity|]. simpl.
  destruct (dropEnd r) as [|x r']; [|discriminate].
  destruct (isWhiteSpace ch); [|discriminate]. intros _. now apply IH.
Qed.

Lemma dropStart_nil l : dropStart l = [] -> forallb isWhiteSpace l = true.
Proof.
  induction l as [|ch r IH]; [reflexivity|]. simpl.
  destruct (isWhiteSpace ch); [exact IH|discriminate].
Qed.

Lemma dropStart_split l :
  exists W, forallb isWhiteSpace W = true /\ l = (W ++ dropStart l)%list.
Proof.
  induction l as [|ch r (W & HW & E)]; [now exists []|]. simpl.
  destruct (isWhiteSpace ch) eqn:C.
  - exists (ch :: W). simpl. rewrite C, HW. split; [reflexivity|]. now rewrite <- E.
  - now exists [].
Qed.

Lemma strip_nil l : dropEnd (dropStart l) = [] -> forallb isWhiteSpace l = true.
Proof.
  intros H. destruct (dropStart_split l) as (W & HW & E). rewrite E.
  rewrite forallb_app, HW. now apply dropEnd_nil.
Qed.

Lemma trim_nil s : trim s = "" -> forallb isWhiteSpace (decode s) = true.
Proof. intros H. apply strip_nil. now apply encode_nil. Qed.

(** *** White space at the ends of the bytes *)

Lemma ws_first ch :
  isWhiteSpace ch = true ->
  is_cont (first_byte ch) = false /\
  match ch with One c => is_lead c = false | Two a b => is_lead a && is_cont b = true end.
Proof.
  destruct ch as [c|a b]; simpl.
  - destruct c as [[] [] [] [] [] [] [] []]; intros H; try discriminate H; now split.
  - intros [A B]%andb_prop. apply N.eqb_eq in A, B.
    unfold is_cont, is_lead. rewrite A, B. now split.
Qed.

Lemma decode_ws_app W s :
  forallb isWhiteSpace W = true -> decode (encode W ++ s) = (W ++ decode s)%list.
Proof.
  induction W as [|x W' IH]; [reflexivity|]. cbn [forallb].
  intros [Hx HW]%andb_prop. destruct (ws_first x Hx) as [_ F].
  destruct x as [c|a b].
  - change (encode (One c :: W') ++ s) with (String c (encode W' ++ s)).
    rewrite decode_not_lead by exact F. now rewrite IH.
  - change (encode (Two a b :: W') ++ s)
      with (String a (String b (encode W' ++ s))).
    rewrite decode_pair by exact F. now rewrite IH.
Qed.

Lemma append_empty_r s : s ++ "" = s.
Proof.
  induction s as [|c r IH]; [reflexivity|].
  change (String c (r ++ "") = String c r). now rewrite IH.
Qed.

Lemma decode_ws W : forallb isWhiteSpace W = true -> decode (encode W) = W.
Proof.
  intros H. pose proof (decode_ws_app W "" H) as E.
  rewrite append_empty_r in E. simpl in E. now rewrite app_nil_r in E.
Qed.

Lemma decode_app_ws s W :
  forallb isWhiteSpace W = true -> decode (s ++ encode W) = (decode s ++ W)%list.
Proof.
  intros HW.
  induction s as [| |c d r E IH|c d r E IH] using decode_cases.
  - now apply decode_ws.
  - destruct W as [|x W']; [reflexivity|].
    change (String c "" ++ encode (x :: W')) with (String c (encode (x :: W'))).
    rewrite encode_cons. simpl in HW. apply andb_prop in HW as [Hx HW'].
    destruct (ws_first x Hx) as [C _]. rewrite decode_not_cont by exact C.
    rewrite <- encode_cons. rewrite decode_ws; [reflexivity|].
    simpl. now rewrite Hx, HW'.
  - change (String c (String d r) ++ encode W)
      with (String c (String d (r ++ encode W))).
    rewrite !decode_pair by exact E. now rewrite IH.
  - change (String c (String d r) ++ encode W)
      with (String c (String d (r ++ encode W))).
    rewrite !decode_single by exact E.
    change (String d (r ++ encode W)) with (String d r ++ encode W).
    now rewrite IH.
Qed.

(** *** On ASCII strings *)

Lemma ascii_not_lead c : (N_of_ascii c <? 128)%N = true -> is_lead c = false.
Proof. destruct c as [[] [] [] [] [] [] [] []]; intros H; try discriminate H; reflexivity. Qed.

Lemma decode_ascii s :
  Ascii7.ascii_only s = true -> decode s = map One (list_ascii_of_string s).
Proof.
  induction s as [|c r IH]; [reflexivity|]. simpl Ascii7.ascii_only.
  intros [Hc Hr]%andb_prop. rewrite decode_not_lead by now apply ascii_not_lead.
  simpl. now rewrite IH.
Qed.

Lemma encode_ones s : encode (map One (list_ascii_of_string s)) = s.
Proof. induction s as [|c r IH]; [reflexivity|]. simpl. now rewrite IH. Qed.

Lemma dropStart_ones s :
  dropStart (map One (list_ascii_of_string s)) =
  map One (list_ascii_of_string (Ascii7.trimStart s)).
Proof.
  induction s as [|c r IH]; [reflexivity|]. simpl.
  destruct (Ascii7.isWhiteSpace c); [exact IH|reflexivity].
Qed.

Lemma dropEnd_ones s :
  dropEnd (map One (list_ascii_of_string s)) =
  map One (list_ascii_of_string (Ascii7.trimEnd s)).
Proof.
  induction s as [|c r IH]; [reflexivity|]. simpl. rewrite IH.
  destruct (Ascii7.trimEnd r) as [|d r']; simpl.
  - destruct (Ascii7.isWhiteSpace c); reflexivity.
  - reflexivity.
Qed.

Lemma lower_ones s :
  map lowerChar (map One (list_ascii_of_string s)) =
  map One (list_ascii_of_string (Ascii7.toLowerCase s)).
Proof. induction s as [|c r IH]; [reflexivity|]. simpl. now rewrite IH. Qed.

End Latin1Facts.

(** The runtime on Latin-1 text has the laws. *)
Lemma latin1_lawful : Js.Lawful latin1_runtime.
Proof.
  split; simpl.
  - intros s. unfold Latin1.trim.
    rewrite decode_encode by (apply wf_dropEnd, wf_dropStart, wf_decode).
    now rewrite strip_idem.
  - intros s. unfold Latin1.toLowerCase.
    rewrite decode_encode by (apply wf_lower, wf_decode).
    rewrite map_map. f_equal. apply map_ext. intros ch. apply latin1_lowerChar_idem.
  - intros s. unfold Latin1.trim, Latin1.toLowerCase.
    rewrite decode_encode by (apply wf_lower, wf_decode).
    rewrite decode_encode by (apply wf_dropEnd, wf_dropStart, wf_decode).
    now rewrite dropStart_lower, dropEnd_lower.
  - intros ws1 s ws2 H1 H2. apply trim_nil in H1, H2. unfold Latin1.trim.
    rewrite <- (encode_decode ws1), <- (encode_decode ws2).
    rewrite decode_ws_app by exact H1. rewrite decode_app_ws by exact H2.
    now rewrite strip_around.
  - intros s H. unfold Latin1.trim, Ascii7.trim.
    now rewrite (decode_ascii s H), dropStart_ones, dropEnd_ones, encode_ones.
  - intros s H. unfold Latin1.toLowerCase.
    now rewrite (decode_ascii s H), lower_ones, encode_ones.
Qed.

(** ** Query normalisation *)

Section Normalize.

Import Js.

Context `{rt : Runtime} {laws : Lawful rt}.

Lemma alias_fix s : s <> "banglore" -> alias s = s.
Proof.
  intros Hs. unfold alias. destruct (String.eqb_spec s "banglore"); [contradiction|reflexivity].
Qed.

Lemma alias_alters s : alias s <> s <-> s = "banglore".
Proof.
  unfold alias. destruct (String.eqb_spec s "banglore") as [->|Hne].
  - split; [reflexivity|discriminate].
  - split; [intros H; now elim H|contradiction].
Qed.

(** On an ASCII string the normalisation is the one of [Ascii7]. *)
Lemma normalize_ascii q :
  Ascii7.ascii_only q = true ->
  normalize q = alias (Ascii7.toLowerCase (Ascii7.trim q)).
Proof.
  intros H. unfold normalize. rewrite (trim_ascii q H).
  now rewrite (lower_ascii _ (ascii_only_trim _ H)).
Qed.

(** ASCII white space is trimmed away. *)
Lemma trim_of_blank s : blank s = true -> trim s = "".
Proof.
  intros B. rewrite (trim_ascii s (blank_ascii _ B)). now apply trim_blank.
Qed.

Lemma normalize_blank q : blank q = true -> normalize q = "".
Proof.
  intros B. rewrite (normalize_ascii q (blank_ascii _ B)).
  now rewrite (trim_blank _ B).
Qed.

(** The lowercased, trimmed input is a fixed point of both operations. *)
Lemma lower_trim_stable q :
  toLowerCase (trim (toLowerCase (trim q))) = toLowerCase (trim q).
Proof. now rewrite trim_lower_comm, trim_trim, lower_lower. Qed.

Lemma normalize_idem q : normalize (normalize q) = normalize q.
Proof.
  unfold normalize at 2 3. unfold alias.
  destruct (String.eqb_spec (toLowerCase (trim q)) "banglore") as [E|E].
  - now rewrite normalize_ascii.
  - unfold normalize. rewrite lower_trim_stable. now apply alias_fix.
Qed.

Lemma normalize_surround ws1 q ws2 :
  trim ws1 = "" -> trim ws2 = "" ->
  normalize (ws1 ++ q ++ ws2) = normalize q.
Proof. intros B1 B2. unfold normalize. now rewrite trim_around. Qed.

Lemma normalize_case q q' :
  toLowerCase q' = toLowerCase q -> normalize q' = normalize q.
Proof. intros E. unfold normalize. now rewrite <- !trim_lower_comm, E. Qed.

(** With a [trim] that removes U+00A0, "BANGLORE" followed by U+00A0 is
    looked up as "bangalore". *)
Example normalize_nbsp :
  trim Sample.nbsp = "" -> normalize ("BANGLORE" ++ Sample.nbsp) = "bangalore".
Proof.
  intros H. change ("BANGLORE" ++ Sample.nbsp) with ("" ++ "BANGLORE" ++ Sample.nbsp).
  rewrite normalize_surround; [|now apply trim_of_blank|exact H].
  now rewrite normalize_ascii.
Qed.

End Normalize.

(** C8: for every input string, with [trim] and [toLowerCase] those of any
    runtime that has the laws of [Js.Lawful]: the normalised query is the
    alias-correction of the lowercased, trimmed input; the alias table alters
    the key "banglore" and no other one, sending it to "bangalore";
    normalising twice is normalising once; and an input that differs from
    [q] only by white space around it (strings that [trim] removes
    altogether) and by the case of its letters (same lowercase form) has the
    normal form of [q]. *)
Theorem C8_normalize `{rt : Js.Runtime} {laws : Js.Lawful rt}
    (ws1 ws2 q q' : string) :
  Js.trim ws1 = "" -> Js.trim ws2 = "" ->
  Js.toLowerCase q' = Js.toLowerCase q ->
  normalize q = alias (Js.toLowerCase (Js.trim q)) /\
  alias "banglore" = "bangalore" /\
  (alias q <> q <-> q = "banglore") /\
  normalize (normalize q) = normalize q /\
  normalize (ws1 ++ q' ++ ws2) = normalize q.
Proof.
  intros B1 B2 E. repeat split.
  - apply alias_alters.
  - apply alias_alters.
  - apply normalize_idem.
  - rewrite normalize_surround by assumption. now apply normalize_case.
Qed.

(** ** The callback [fetchWeather] *)

Import App Sample.
Local Open Scope cmd_scope.

Section Generic.

Context `{rt : Js.Runtime} {laws : Js.Lawful rt}.


Section Callback.

Implicit Types (env : Closure) (w : World) (res : AxiosResult).

(** A call with a non-empty query goes out. *)
Lemma fetchWeather_dispatch env query w :
  Js.truthy query = true ->
  fetchWeather env query w =
  axios_get {| p_env := env; p_searchCity := normalize query;
               request_of := request env (protocol w) (normalize query) |}
            (setError None (setLoading true w)).
Proof. intros T. unfold fetchWeather. now rewrite T. Qed.

(** A call with the empty string returns at once. *)
Lemma fetchWeather_empty env w : fetchWeather env "" w = w.
Proof. reflexivity. Qed.

(** The position of the call that went out last. *)
Lemma lookup_last {A} (l : list A) (x : A) : (l ++ [x])%list !! length l = Some x.
Proof. now rewrite list_lookup_middle. Qed.

Lemma delete_last {A} (l : list A) (x : A) :
  delete (length l) (l ++ [x])%list = l.
Proof. rewrite delete_middle. apply app_nil_r. Qed.

(** An invocation with nothing in between is the first half of the callback
    followed by the second half, in the same closure. *)
Lemma invoke_dispatch env query res now w :
  Js.truthy query = true ->
  invoke env query res now w =
  fetchWeather_settle env (normalize query) now res
    (clearPending (length (inflight w)) (fetchWeather env query w)).
Proof.
  intros T. unfold invoke. rewrite T. unfold settle.
  rewrite (fetchWeather_dispatch _ _ _ T). simpl. now rewrite lookup_last.
Qed.

(** What the second half does to the report, the error and the timers, by the
    branch the answer takes. *)
Lemma settle_outcome env searchCity now res w :
  let w' := fetchWeather_settle env searchCity now res w in
  match classify (protocol w) res with
  | Success d =>
      weatherData w' = Some d /\ error w' = error w /\ timers w' = timers w /\
      st_recentSearches w' = newRecent (location_name d) (recentSearches env) /\
      skycast_recent w' = newRecent (location_name d) (recentSearches env) /\
      st_useHistorical w' = st_useHistorical w
  | RecoverableError notice =>
      weatherData w' = None /\ error w' = Some notice /\
      timers w' = (timers w ++
        [{| t_env := env; t_query := searchCity; t_delay := 2000 |}])%list /\
      st_recentSearches w' = st_recentSearches w /\
      skycast_recent w' = skycast_recent w /\
      st_useHistorical w' = false
  | TerminalError message =>
      weatherData w' = None /\ error w' = Some message /\ timers w' = timers w /\
      st_recentSearches w' = st_recentSearches w /\
      skycast_recent w' = skycast_recent w /\
      st_useHistorical w' = st_useHistorical w
  end.
Proof.
  destruct res as [st [e|d]|err]; simpl.
  - destruct (tier_restricted (error_code e)); simpl; repeat split.
  - repeat split.
  - repeat split.
Qed.

(** The second half leaves the requests alone. *)
Lemma settle_frame env searchCity now res w :
  let w' := fetchWeather_settle env searchCity now res w in
  sent w' = sent w /\ inflight w' = inflight w /\ protocol w' = protocol w /\
  loading w' = false.
Proof.
  destruct res as [st [e|d]|err]; simpl.
  - destruct (tier_restricted (error_code e)); simpl; repeat split.
  - repeat split.
  - repeat split.
Qed.

(** The first half touches neither the report, the timers nor the list of
    recent searches; it clears the error when the call goes out. *)
Lemma fetchWeather_frame env query w :
  let w' := fetchWeather env query w in
  weatherData w' = weatherData w /\ timers w' = timers w /\
  st_recentSearches w' = st_recentSearches w /\
  skycast_recent w' = skycast_recent w /\ protocol w' = protocol w /\
  st_useHistorical w' = st_useHistorical w /\
  (Js.truthy query = true -> error w' = None).
Proof.
  unfold fetchWeather. destruct (Js.truthy query); simpl; repeat split; discriminate.
Qed.

End Callback.

(** ** The transport *)

(** C1: the request of a call goes to the relay ["/api/weather"], with the
    mode as the parameter [endpoint], when the page was loaded over
    ["https:"], and to the HTTP endpoint of the weather service named by the
    mode otherwise; the choice between relay and service does not look at the
    mode (the closure [env] is arbitrary). *)
Theorem C1_route_by_scheme (env : Closure) (query : string) (w : World) :
  Js.truthy query = true ->
  exists r : Request,
    sent (fetchWeather env query w) = (sent w ++ [r])%list /\
    route r = (if String.eqb (protocol w) "https:" then RELAYED else DIRECT) /\
    url r = (if String.eqb (protocol w) "https:" then "/api/weather"
             else "http://api.weatherstack.com/" ++ endpoint env) /\
    params r !! "endpoint" =
      (if String.eqb (protocol w) "https:" then Some (endpoint env) else None) /\
    params r !! "query" = Some (normalize query).
Proof.
  intros T. rewrite (fetchWeather_dispatch _ _ _ T). simpl.
  eexists; split; [reflexivity|].
  unfold request, route, secure, endpoint.
  destruct (String.eqb (protocol w) "https:"), (historical env); simpl;
    repeat split; by simplify_map_eq.
Qed.

(** ** The guard on the query *)

(** C6: a query of three spaces passes the guard [if (!query) return], is
    trimmed to the empty string and is sent with an empty [query]
    parameter. *)
Theorem C6_blank_query_dispatched (env : Closure) (w : World) :
  Js.trim "   " = "" /\
  sent (fetchWeather env "   " w) = (sent w ++ [request env (protocol w) ""])%list /\
  params (request env (protocol w) "") !! "query" = Some "".
Proof.
  split; [now apply trim_of_blank|]. split.
  - rewrite fetchWeather_dispatch by reflexivity. simpl.
    now rewrite normalize_blank.
  - unfold request. destruct (secure (protocol w)), (historical env); by simplify_map_eq.
Qed.

(** Only the empty string stops at the guard. *)
Lemma guard_stops_only_empty (env : Closure) (query : string) (w : World) :
  sent (fetchWeather env query w) = sent w <-> query = "".
Proof.
  destruct query as [|c r].
  - split; reflexivity.
  - split; [|discriminate]. simpl. intros H.
    apply (f_equal length) in H. rewrite length_app in H. simpl in H. lia.
Qed.

(** ** The classification of the answer *)

Section Classification.

Implicit Types (env : Closure) (w : World) (e : ApiError).

Lemma tier_restricted_spec (errorCode : option Z) :
  tier_restricted errorCode = true <->
  exists c : Z, errorCode = Some c /\ c ∈ [601; 602; 603; 604]%Z.
Proof.
  unfold tier_restricted. split.
  - destruct errorCode as [c|]; [|discriminate]. intros H. exists c. split; [reflexivity|].
    rewrite !orb_true_iff, !Z.eqb_eq in H. rewrite !elem_of_cons. tauto.
  - intros (c & -> & Hc). rewrite !elem_of_cons, elem_of_nil in Hc.
    rewrite !orb_true_iff, !Z.eqb_eq. tauto.
Qed.

Lemma or_else_first (a : option string) (b s : string) :
  a = Some s -> s <> "" -> Js.or_else a b = s.
Proof. intros -> Hs. destruct s; [contradiction|reflexivity]. Qed.

Lemma or_else_second (a : option string) (b : string) :
  a = None \/ a = Some "" -> Js.or_else a b = b.
Proof. intros [->| ->]; reflexivity. Qed.

(** The message of an explicit failure: [info], else [type], else the fixed
    text. *)
Lemma errorMsg_cases e :
  (forall i, error_info e = Some i -> i <> "" -> errorMsg e = i) /\
  (error_info e = None \/ error_info e = Some "" ->
   forall t, error_type e = Some t -> t <> "" -> errorMsg e = t) /\
  (error_info e = None \/ error_info e = Some "" ->
   error_type e = None \/ error_type e = Some "" ->
   errorMsg e = "City not found or API error.").
Proof.
  unfold errorMsg. repeat split.
  - intros i Hi Hne. now apply or_else_first.
  - intros Hi t Ht Hne. rewrite (or_else_second _ _ Hi). now apply or_else_first.
  - intros Hi Ht. now rewrite (or_else_second _ _ Hi), (or_else_second _ _ Ht).
Qed.

End Classification.

(** A failure body in an answer that resolved: the retry branch exactly on
    the codes 601 to 604, else the message of the body. *)
Lemma resolved_failure
    (env : Closure) (searchCity now : string) (status : Z) (e : ApiError)
    (w : World) :
  let res := Resolved status (Failure e) in
  let w' := fetchWeather_settle env searchCity now res w in
  let tier := exists c : Z, error_code e = Some c /\ c ∈ [601; 602; 603; 604]%Z in
  (tier <-> exists notice, classify (protocol w) res = RecoverableError notice) /\
  (tier -> classify (protocol w) res = RecoverableError PREMIUM_RECOVERY /\
           error w' = Some PREMIUM_RECOVERY /\
           exists t, timers w' = (timers w ++ [t])%list) /\
  (~ tier ->
     classify (protocol w) res = TerminalError ("STATION_RESPONSE: " ++ errorMsg e) /\
     error w' = Some ("STATION_RESPONSE: " ++ errorMsg e) /\
     timers w' = timers w).
Proof.
  intros res w' tier. subst res w'.
  assert (Ht : tier_restricted (error_code e) = true <-> tier)
    by apply tier_restricted_spec.
  split; [|split].
  - simpl. destruct (tier_restricted (error_code e)).
    + split; [eauto|]. intros _. now apply Ht.
    + split; [intros H; apply Ht in H; discriminate|]. intros (n & Hn). discriminate.
  - intros H. apply Ht in H. simpl. rewrite H. simpl. eauto.
  - intros H. simpl. destruct (tier_restricted (error_code e)); [|now simpl].
    elim H. now apply Ht.
Qed.

(** An answer that was thrown goes to the [catch] block, whatever its body. *)
Lemma thrown_answer
    (env : Closure) (searchCity now : string) (err : AxiosError) (w : World) :
  let w' := fetchWeather_settle env searchCity now (Rejected err) w in
  classify (protocol w) (Rejected err) = TerminalError (catch_message (protocol w) err) /\
  error w' = Some (catch_message (protocol w) err) /\
  timers w' = timers w.
Proof. now repeat split. Qed.

(** The text chosen by the [catch] block for an answer with a status. *)
Lemma catch_message_status (proto : string) (err : AxiosError) (st : Z) (data : ResponseData) :
  err_response err = Some (st, data) ->
  (st = 401%Z -> catch_message proto err = ACCESS_DENIED) /\
  (st <> 401%Z -> err_code err = Some "ERR_NETWORK" ->
   catch_message proto err =
     if secure proto then PROXY_UNAVAILABLE else PROTOCOL_ERROR) /\
  (st <> 401%Z -> err_code err <> Some "ERR_NETWORK" ->
   catch_message proto err = "INTERFACE_ERROR: " ++ err_message err).
Proof.
  intros E. unfold catch_message. rewrite E. simpl. split; [|split].
  - intros ->. now rewrite bool_decide_true.
  - intros Hst Hc. rewrite bool_decide_false by (intros [= H]; now apply Hst).
    now rewrite bool_decide_true.
  - intros Hst Hc. rewrite bool_decide_false by (intros [= H]; now apply Hst).
    now rewrite bool_decide_false.
Qed.

(** C3, amended: a body with [success === false] reaches the callback either
    in an answer that resolved (a 2xx status) or in one that [axios.get]
    threw.  The answer is recoverable exactly when it resolved and the error
    code of the body is one of 601, 602, 603, 604: then the notice is shown
    and a retry is scheduled.  Every other such body in an answer that
    resolved is terminal, no retry is scheduled, and the message shown is
    "STATION_RESPONSE: " followed by the [info] of the body when it has a
    non-empty one, else by its [type] when that is non-empty, else by
    "City not found or API error.".  A body in an answer that was thrown is
    terminal whatever its code, no retry is scheduled, and the message is the
    one of the [catch] block, which does not read the body: the fixed text
    for status 401, for any other status the text for network errors when
    the code of the thrown error is [ERR_NETWORK], and else
    "INTERFACE_ERROR: " followed by the message of the thrown error. *)
Theorem C3_failure_body
    (env : Closure) (searchCity now : string) (res : AxiosResult) (e : ApiError)
    (w : World) :
  failure_body res = Some e ->
  let w' := fetchWeather_settle env searchCity now res w in
  let tier := exists c : Z, error_code e = Some c /\ c ∈ [601; 602; 603; 604]%Z in
  let resolved := exists status : Z, res = Resolved status (Failure e) in
  let thrown := exists (err : AxiosError) (st : Z),
                  res = Rejected err /\ err_response err = Some (st, Failure e) in
  (resolved \/ thrown) /\
  ((exists notice, classify (protocol w) res = RecoverableError notice) <->
   resolved /\ tier) /\
  (resolved -> tier ->
     classify (protocol w) res = RecoverableError PREMIUM_RECOVERY /\
     error w' = Some PREMIUM_RECOVERY /\
     exists t, timers w' = (timers w ++ [t])%list) /\
  (resolved -> ~ tier ->
     classify (protocol w) res = TerminalError ("STATION_RESPONSE: " ++ errorMsg e) /\
     error w' = Some ("STATION_RESPONSE: " ++ errorMsg e) /\
     timers w' = timers w) /\
  (forall (err : AxiosError) (st : Z),
     res = Rejected err -> err_response err = Some (st, Failure e) ->
     classify (protocol w) res = TerminalError (catch_message (protocol w) err) /\
     error w' = Some (catch_message (protocol w) err) /\
     timers w' = timers w /\
     (st = 401%Z -> catch_message (protocol w) err = ACCESS_DENIED) /\
     (st <> 401%Z -> err_code err = Some "ERR_NETWORK" ->
      catch_message (protocol w) err =
        if secure (protocol w) then PROXY_UNAVAILABLE else PROTOCOL_ERROR) /\
     (st <> 401%Z -> err_code err <> Some "ERR_NETWORK" ->
      catch_message (protocol w) err = "INTERFACE_ERROR: " ++ err_message err)) /\
  (forall i, error_info e = Some i -> i <> "" -> errorMsg e = i) /\
  (error_info e = None \/ error_info e = Some "" ->
   forall t, error_type e = Some t -> t <> "" -> errorMsg e = t) /\
  (error_info e = None \/ error_info e = Some "" ->
   error_type e = None \/ error_type e = Some "" ->
   errorMsg e = "City not found or API error.").
Proof.
  intros B w' tier resolved thrown. subst w'.
  assert (Shape : resolved \/ thrown).
  { destruct res as [st [e'|d]|err]; simpl in B.
    - injection B as ->. left. now exists st.
    - discriminate B.
    - right. destruct (err_response err) as [[st [e'|d]]|] eqn:E; try discriminate B.
      injection B as ->. now exists err, st. }
  split; [exact Shape|]. split; [|split; [|split; [|split]]].
  - split.
    + intros (notice & C). destruct Shape as [(st & ->)|(err & st & -> & _)].
      * split; [now exists st|].
        now apply (resolved_failure env searchCity now st e w); exists notice.
      * discriminate C.
    + intros [(st & ->) T].
      now apply (resolved_failure env searchCity now st e w).
  - intros (st & ->) T. now apply (resolved_failure env searchCity now st e w).
  - intros (st & ->) T. now apply (resolved_failure env searchCity now st e w).
  - intros err st -> E.
    destruct (thrown_answer env searchCity now err w) as (C & He & Ht).
    destruct (catch_message_status (protocol w) err st _ E) as (H1 & H2 & H3).
    now repeat (split; [assumption|]).
  - apply errorMsg_cases.
Qed.

(** ** Terminal errors *)

(** C7: when the answer of an invocation is a terminal error, its message is
    the error shown, the timers are the ones there were (no retry), the list of
    recent searches and its stored copy are unchanged and no report is
    held. *)
Theorem C7_terminal_error
    (env : Closure) (query now message : string) (res : AxiosResult) (w : World) :
  Js.truthy query = true ->
  classify (protocol w) res = TerminalError message ->
  let w' := invoke env query res now w in
  error w' = Some message /\
  timers w' = timers w /\
  st_recentSearches w' = st_recentSearches w /\
  skycast_recent w' = skycast_recent w /\
  weatherData w' = None.
Proof.
  intros T C w'. subst w'. rewrite (invoke_dispatch _ _ _ _ _ T).
  set (w1 := clearPending _ _).
  assert (F : protocol w1 = protocol w /\ timers w1 = timers w /\
              st_recentSearches w1 = st_recentSearches w /\
              skycast_recent w1 = skycast_recent w).
  { subst w1. rewrite (fetchWeather_dispatch _ _ _ T). simpl. tauto. }
  destruct F as (Fp & Ft & Fr & Fs).
  pose proof (settle_outcome env (normalize query) now res w1) as H.
  rewrite Fp, C in H. cbv beta iota zeta in H.
  destruct H as (Hd & He & Htm & Hr & Hs & _).
  rewrite He, Htm, Hr, Hs, Hd. tauto.
Qed.

(** The same holds for the answer of any call in flight, whatever happened
    since the call went out. *)
Lemma terminal_settle_any
    (i : nat) (k : Pending) (now message : string) (res : AxiosResult) (w : World) :
  inflight w !! i = Some k ->
  classify (protocol w) res = TerminalError message ->
  let w' := settle i res now w in
  error w' = Some message /\ timers w' = timers w /\
  st_recentSearches w' = st_recentSearches w /\
  skycast_recent w' = skycast_recent w /\ weatherData w' = None.
Proof.
  intros Hk C w'. subst w'. unfold settle. rewrite Hk. unfold seq.
  pose proof (settle_outcome (p_env k) (p_searchCity k) now res (clearPending i w)) as H.
  change (protocol (clearPending i w)) with (protocol w) in H.
  rewrite C in H. cbv beta iota zeta in H.
  destruct H as (Hd & He & Htm & Hr & Hs & _).
  rewrite He, Htm, Hr, Hs, Hd. now repeat split.
Qed.

(** ** The report and the error message *)

Section ReportOrError.

Implicit Types (env : Closure) (w : World) (res : AxiosResult).

(** An invocation with nothing in between leaves exactly one of the report
    and the error message. *)
Lemma invoke_exactly_one env query now res w :
  Js.truthy query = true ->
  let w' := invoke env query res now w in
  exactly_one w' /\
  (forall d, classify (protocol w) res = Success d ->
             weatherData w' = Some d /\ error w' = None) /\
  ((forall d, classify (protocol w) res <> Success d) ->
   weatherData w' = None /\ is_Some (error w')).
Proof.
  intros T w'. subst w'. rewrite (invoke_dispatch _ _ _ _ _ T).
  set (w1 := clearPending _ _).
  assert (F : protocol w1 = protocol w /\ error w1 = None).
  { subst w1. rewrite (fetchWeather_dispatch _ _ _ T). simpl. tauto. }
  destruct F as (Fp & Fe).
  pose proof (settle_outcome env (normalize query) now res w1) as H.
  rewrite Fp in H. cbv beta zeta in H.
  destruct (classify (protocol w) res) as [d|notice|message];
    destruct H as (Hd & He & _); rewrite Hd, He, ?Fe; unfold exactly_one.
  - split; [left; rewrite Hd, He, Fe; eauto|].
    split; [now intros d' [= <-]|]. intros H. now elim (H d).
  - split; [right; rewrite Hd, He; eauto|].
    split; [discriminate|eauto].
  - split; [right; rewrite Hd, He; eauto|].
    split; [discriminate|eauto].
Qed.

(** What the answer of a call in flight does to the report and the error
    message, whatever happened since the call went out. *)
Lemma settle_any i k now res w :
  inflight w !! i = Some k ->
  let w' := settle i res now w in
  match classify (protocol w) res with
  | Success d => weatherData w' = Some d /\ error w' = error w
  | RecoverableError m | TerminalError m =>
      weatherData w' = None /\ error w' = Some m
  end.
Proof.
  intros Hk w'. subst w'. unfold settle. rewrite Hk. unfold seq.
  pose proof (settle_outcome (p_env k) (p_searchCity k) now res (clearPending i w)) as H.
  change (protocol (clearPending i w)) with (protocol w) in H.
  change (error (clearPending i w)) with (error w) in H.
  cbv beta zeta in H.
  destruct (classify (protocol w) res); destruct H as (Hd & He & _); now split.
Qed.

(** A transition that sets an error message where there was none is the
    arrival of an answer that is not a report, or a failed geolocation
    lookup. *)
Lemma error_set_by w w' :
  step w w' -> error w = None -> is_Some (error w') -> error_arrives w w'.
Proof.
  intros S E [m Hm].
  destruct S as [query w|i res now w [k Hk]|i w [t Ht]|w|d w|k w|w].
  - exfalso. pose proof (fetchWeather_frame (render w) query w) as F.
    cbv zeta in F. destruct F as (_ & _ & _ & _ & _ & _ & F).
    destruct query as [|c r]; [rewrite fetchWeather_empty in Hm; congruence|].
    rewrite F in Hm by reflexivity. discriminate Hm.
  - left. exists i, res, now. split; [eauto|]. split; [|reflexivity].
    intros d C. pose proof (settle_any i k now res w Hk) as H.
    cbv zeta in H. rewrite C in H. destruct H as [_ He]. congruence.
  - exfalso. unfold fire in Hm. rewrite Ht in Hm. unfold seq in Hm.
    pose proof (fetchWeather_frame (t_env t) (t_query t) (clearTimer i w)) as F.
    cbv zeta in F. destruct F as (_ & _ & _ & _ & _ & _ & F).
    destruct (t_query t) as [|c r].
    + rewrite fetchWeather_empty in Hm.
      change (error (clearTimer i w)) with (error w) in Hm. congruence.
    + rewrite F in Hm by reflexivity. discriminate Hm.
  - exfalso. simpl in Hm. congruence.
  - exfalso. simpl in Hm. congruence.
  - exfalso. simpl in Hm. congruence.
  - now right.
Qed.

(** Such a transition does set an error message. *)
Lemma error_arrives_sets w w' : error_arrives w w' -> is_Some (error w').
Proof.
  intros [(i & res & now & [k Hk] & C & ->)| ->]; [|simpl; eauto].
  pose proof (settle_any i k now res w Hk) as H. cbv zeta in H.
  destruct (classify (protocol w) res) as [d|m|m].
  - now elim (C d).
  - destruct H as [_ ->]. eauto.
  - destruct H as [_ ->]. eauto.
Qed.

(** The call that goes out is not such a transition. *)
Lemma dispatch_quiet env query w :
  Js.truthy query = true -> ~ error_arrives w (fetchWeather env query w).
Proof.
  intros T H. apply error_arrives_sets in H as [m Hm].
  pose proof (fetchWeather_frame env query w) as F. cbv zeta in F.
  destruct F as (_ & _ & _ & _ & _ & _ & F). rewrite (F T) in Hm. discriminate Hm.
Qed.

(** As long as no such transition happens, no error message is held. *)
Lemma quiet_no_error w0 w :
  reachable_without error_arrives w0 w -> error w0 = None -> error w = None.
Proof.
  induction 1 as [|w w' _ IH S Q]; intros E; [exact E|].
  destruct (error w') as [m|] eqn:Hm; [|reflexivity].
  elim Q. apply error_set_by; [exact S|now apply IH|]. rewrite Hm. eauto.
Qed.

End ReportOrError.

(** C9, amended: a call that passes the guard clears the error message as it
    goes out.  When the answer of a call in flight arrives, whatever happened
    since the call went out, a report is held and the error message stays as
    it was, and any other answer sets an error message and drops the report,
    leaving exactly one of the two; so once the answer is in, at least one of
    the two is held.  When the answer is a report, exactly one is held if no
    error message is held as it arrives, and both are held otherwise.  No
    error message is held as long as no transition since a call went out was
    the arrival of an answer that is not a report or a failed geolocation
    lookup, in particular when the answer of the call comes back before
    anything else happens; only those two kinds of transition set an error
    message where there was none. *)
Theorem C9_report_or_error
    (env : Closure) (query now : string) (res : AxiosResult) (i : nat)
    (k : Pending) (w w1 : World) :
  let w' := settle i res now w1 in
  (Js.truthy query = true -> error (fetchWeather env query w) = None) /\
  (inflight w1 !! i = Some k ->
     (forall d, classify (protocol w1) res = Success d ->
                weatherData w' = Some d /\ error w' = error w1) /\
     ((forall d, classify (protocol w1) res <> Success d) ->
      weatherData w' = None /\ is_Some (error w') /\ exactly_one w') /\
     (is_Some (weatherData w') \/ is_Some (error w')) /\
     (error w1 = None -> exactly_one w') /\
     (forall d, classify (protocol w1) res = Success d -> is_Some (error w1) ->
                is_Some (weatherData w') /\ is_Some (error w') /\ ~ exactly_one w') /\
     (Js.truthy query = true ->
      reachable_without error_arrives (fetchWeather env query w) w1 ->
      error w1 = None /\ exactly_one w')) /\
  (Js.truthy query = true -> exactly_one (invoke env query res now w)) /\
  (forall v v' : World,
     step v v' -> error v = None -> is_Some (error v') -> error_arrives v v').
Proof.
  intros w'. subst w'.
  assert (D : Js.truthy query = true -> error (fetchWeather env query w) = None).
  { intros T. now apply fetchWeather_frame. }
  split; [exact D|]. split; [|split].
  - intros Hk.
    pose proof (settle_any i k now res w1 Hk) as H. cbv zeta in H.
    assert (X : error w1 = None -> exactly_one (settle i res now w1)).
    { intros E. unfold exactly_one.
      destruct (classify (protocol w1) res) as [d|m|m]; destruct H as [-> ->].
      - left. rewrite E. eauto.
      - right. eauto.
      - right. eauto. }
    split; [|split; [|split; [|split; [|split]]]].
    + intros d C. rewrite C in H. exact H.
    + intros C. unfold exactly_one.
      destruct (classify (protocol w1) res) as [d|m|m]; [now elim (C d)| |];
        destruct H as [-> ->]; eauto.
    + destruct (classify (protocol w1) res) as [d|m|m]; destruct H as [-> ->]; eauto.
    + exact X.
    + intros d C [m Hm]. rewrite C in H. destruct H as [Hd He].
      rewrite Hm in He. split; [rewrite Hd; eauto|]. split; [rewrite He; eauto|].
      unfold exactly_one. rewrite Hd, He. intros [[_ N]|[N _]]; discriminate N.
    + intros T Q. assert (E : error w1 = None) by exact (quiet_no_error _ _ Q (D T)).
      split; [exact E|now apply X].
  - intros T. now apply invoke_exactly_one.
  - intros v v'. apply error_set_by.
Qed.

(** ** The retry *)

Section Retry.

Implicit Types (env : Closure) (w : World).

(** A recoverable answer schedules one callback, two seconds later, for the
    normalised query of the call, in the closure of the call, and switches the
    mode cell to live. *)
Lemma retry_scheduled env searchCity now res notice w :
  classify (protocol w) res = RecoverableError notice ->
  let w' := fetchWeather_settle env searchCity now res w in
  timers w' = (timers w ++ [{| t_env := env; t_query := searchCity;
                               t_delay := 2000 |}])%list /\
  st_useHistorical w' = false /\ error w' = Some notice.
Proof.
  intros C w'. subst w'.
  pose proof (settle_outcome env searchCity now res w) as H.
  rewrite C in H. cbv beta iota zeta in H. tauto.
Qed.

(** The callback of a timer runs in the closure of the timer: its request is
    built from the mode and the date captured there, whatever the mode cell
    holds by then. *)
Lemma fire_request w t :
  timers w !! 0 = Some t -> Js.truthy (t_query t) = true ->
  sent (fire 0 w) =
  (sent w ++ [request (t_env t) (protocol w) (normalize (t_query t))])%list.
Proof.
  intros Ht T. unfold fire. rewrite Ht. unfold seq.
  now rewrite (fetchWeather_dispatch _ _ _ T).
Qed.

(** The retry asks for the same place: its query is already normal. *)
Lemma retry_same_query query : normalize (normalize query) = normalize query.
Proof. apply normalize_idem. Qed.

Lemma retry_round_spec w :
  timers w = [retry] -> inflight w = [] -> protocol w = "http:" ->
  timers (retry_round w) = [retry] /\ inflight (retry_round w) = [] /\
  protocol (retry_round w) = "http:" /\
  st_useHistorical (retry_round w) = false /\
  url <$> sent (retry_round w) =
    ((url <$> sent w) ++ ["http://api.weatherstack.com/historical"])%list.
Proof.
  intros Ht Hi Hp.
  assert (N : normalize "london" = "london") by now rewrite normalize_ascii.
  unfold retry_round, fire. rewrite Ht. simpl lookup. unfold seq.
  rewrite (fetchWeather_dispatch (t_env retry) (t_query retry)) by reflexivity.
  unfold settle. simpl inflight. rewrite Hi. simpl lookup. unfold seq.
  simpl. rewrite Ht, Hi, Hp, N. simpl. rewrite fmap_app. now repeat split.
Qed.

End Retry.

(** C2: a call made in archive mode whose answer carries code 603 switches
    the mode cell to live and schedules a retry; the retry runs in the
    closure of the first call, so it asks the historical endpoint again, and
    when the service answers 603 again the next retry is scheduled: after any
    number [n] of retries one more is pending and all the [n + 1] requests
    went to the historical endpoint. *)
Theorem C2_retry_repeats (n : nat) :
  let w1 := invoke (render archive) "London" tier603 "10:00:00" archive in
  let w := Nat.iter n retry_round w1 in
  st_useHistorical w = false /\
  timers w = [retry] /\
  url <$> sent w = replicate (S n) "http://api.weatherstack.com/historical".
Proof.
  intros w1 w. subst w.
  assert (H : timers (Nat.iter n retry_round w1) = [retry] /\
              inflight (Nat.iter n retry_round w1) = [] /\
              protocol (Nat.iter n retry_round w1) = "http:" /\
              st_useHistorical (Nat.iter n retry_round w1) = false /\
              url <$> sent (Nat.iter n retry_round w1) =
                replicate (S n) "http://api.weatherstack.com/historical").
  { induction n as [|n IH].
    - assert (N : normalize "London" = "london") by now rewrite normalize_ascii.
      simpl Nat.iter. subst w1. rewrite invoke_dispatch by reflexivity.
      rewrite fetchWeather_dispatch by reflexivity. rewrite N. now repeat split.
    - destruct IH as (Ht & Hi & Hp & _ & Hs). simpl Nat.iter.
      destruct (retry_round_spec _ Ht Hi Hp) as (Ht' & Hi' & Hp' & Hu' & Hs').
      repeat split; try assumption.
      rewrite Hs', Hs. change (?l ++ [?x])%list with (l ++ replicate 1 x)%list.
      rewrite <- replicate_add. f_equal. lia. }
  tauto.
Qed.

(** ** The list of recent searches *)

Section RecencyCache.

Implicit Types (env : Closure) (w : World) (l : list string).

Lemma newRecent_length name l : length (newRecent name l) <= 5.
Proof. unfold newRecent. rewrite length_take. lia. Qed.

Lemma newRecent_NoDup name l : NoDup l -> NoDup (newRecent name l).
Proof.
  intros H. unfold newRecent. eapply sublist_NoDup; [|apply sublist_take].
  apply NoDup_cons. split.
  - rewrite list_elem_of_filter. intros [Hne _]. now apply Hne.
  - now apply NoDup_filter.
Qed.

Lemma newRecent_ok name l : cache_ok l -> cache_ok (newRecent name l).
Proof.
  intros [_ H]. split; [apply newRecent_length|now apply newRecent_NoDup].
Qed.

(** The name just resolved comes first. *)
Lemma newRecent_head name l : newRecent name l !! 0 = Some name.
Proof. reflexivity. Qed.

Lemma caches_ok_mount proto key l : cache_ok l -> caches_ok (mount proto key l).
Proof. intros H. repeat split; try apply H; constructor. Qed.

Lemma caches_ok_fetchWeather env query w :
  cache_ok (recentSearches env) -> caches_ok w -> caches_ok (fetchWeather env query w).
Proof.
  intros He (H1 & H2 & H3). unfold caches_ok, fetchWeather, seq, skip.
  destruct (Js.truthy query); simpl; [|split; [exact H1|split; assumption]].
  split; [exact H1|]. split; [|exact H3]. simpl.
  apply Forall_app. split; [exact H2|]. constructor; [exact He|constructor].
Qed.

Lemma caches_ok_settle env searchCity now res w :
  cache_ok (recentSearches env) -> caches_ok w ->
  caches_ok (fetchWeather_settle env searchCity now res w).
Proof.
  intros He (H1 & H2 & H3). unfold caches_ok, fetchWeather_settle, seq.
  destruct res as [st [e|d]|err]; simpl.
  - destruct (tier_restricted (error_code e)); simpl.
    + split; [exact H1|]. split; [exact H2|]. simpl.
      apply Forall_app. split; [exact H3|]. constructor; [exact He|constructor].
    + split; [exact H1|split; assumption].
  - split; [|split; assumption]. now apply newRecent_ok.
  - split; [exact H1|split; assumption].
Qed.

(** Every transition keeps all the lists good. *)
Lemma caches_ok_step w w' : step w w' -> caches_ok w -> caches_ok w'.
Proof.
  intros S I. destruct S as [query w|i res now w [k Hk]|i w [t Ht]|w|d w|k w|w].
  - apply caches_ok_fetchWeather; [|exact I]. apply I.
  - unfold settle. rewrite Hk. destruct I as (H1 & H2 & H3).
    apply caches_ok_settle.
    + exact (Forall_lookup_1 _ _ _ _ H2 Hk).
    + split; [exact H1|]. split; [|exact H3]. simpl. now apply Forall_delete.
  - unfold fire. rewrite Ht. destruct I as (H1 & H2 & H3).
    apply caches_ok_fetchWeather.
    + exact (Forall_lookup_1 _ _ _ _ H3 Ht).
    + split; [exact H1|]. split; [exact H2|]. simpl. now apply Forall_delete.
  - exact I.
  - exact I.
  - exact I.
  - exact I.
Qed.

Lemma caches_ok_reachable w0 w : reachable w0 w -> caches_ok w0 -> caches_ok w.
Proof.
  induction 1 as [|w w' _ IH S]; intros I; [exact I|].
  eapply caches_ok_step; eauto.
Qed.

(** A transition that changes the list, or its stored copy, is the arrival of
    a report. *)
Lemma step_cache w w' :
  step w w' ->
  (st_recentSearches w' = st_recentSearches w /\
   skycast_recent w' = skycast_recent w) \/
  exists i k status d now,
    inflight w !! i = Some k /\
    w' = settle i (Resolved status (Report d)) now w /\
    st_recentSearches w' = newRecent (location_name d) (recentSearches (p_env k)).
Proof.
  intros S. destruct S as [query w|i res now w [k Hk]|i w [t Ht]|w|d w|k w|w].
  - left. split; apply fetchWeather_frame.
  - destruct res as [st [e|d]|err].
    + left. unfold settle. rewrite Hk. unfold seq. simpl.
      destruct (tier_restricted (error_code e)); now simpl.
    + right. exists i, k, st, d, now. split; [exact Hk|]. split; [reflexivity|].
      unfold settle. now rewrite Hk.
    + left. unfold settle. now rewrite Hk.
  - left. unfold fire. rewrite Ht. unfold seq.
    pose proof (fetchWeather_frame (t_env t) (t_query t) (clearTimer i w)) as F.
    cbv zeta in F. destruct F as (_ & _ & -> & -> & _). now split.
  - left. now split.
  - left. now split.
  - left. now split.
  - left. now split.
Qed.

(** As long as no report arrives, the list stays as it is. *)
Lemma quiet_same_list w0 w :
  reachable_without report_arrives w0 w -> st_recentSearches w = st_recentSearches w0.
Proof.
  induction 1 as [|w w' _ IH S Q]; [reflexivity|].
  destruct (step_cache _ _ S) as [[E _]|(i & k & st & d & now & Hk & E & _)].
  - now rewrite E.
  - elim Q. exists i, st, d, now. split; [eauto|exact E].
Qed.

(** The call that goes out is not the arrival of a report. *)
Lemma dispatch_no_report env query w :
  Js.truthy query = true -> ~ report_arrives w (fetchWeather env query w).
Proof.
  intros T (i & st & d & now & [k Hk] & E).
  apply (f_equal loading) in E. rewrite (fetchWeather_dispatch _ _ _ T) in E.
  unfold settle in E. rewrite Hk in E. discriminate E.
Qed.

End RecencyCache.

(** C5, amended: when a report arrives, the resolved name is put in front of
    the list of recent searches that the callback of the call captured (the
    list of the render that created the callback), its earlier occurrence
    there is dropped and 5 entries are kept ([A, B, C] and B give [B, A, C]);
    the same list is stored; it has at most 5 entries.  The captured list is
    the list held when the report arrives if no other report arrived since
    that render, in particular when the answer comes back before anything
    else happens.  Provided the list loaded from the storage when the
    component mounted has at most 5 names and no repetition, so has the list
    in every state the component reaches.  And a transition that changes the
    list is the arrival of a report. *)
Theorem C5_recency_cache_captured
    (proto key now : string) (recent : list string) (status : Z)
    (d : WeatherData) (i : nat) (k : Pending) (w w' v : World) :
  reachable (mount proto key recent) w ->
  step w w' ->
  let name := location_name d in
  let s := settle i (Resolved status (Report d)) now w in
  (inflight w !! i = Some k ->
     st_recentSearches s =
       take 5 (name :: filter (fun c => c <> name) (recentSearches (p_env k))) /\
     skycast_recent s = st_recentSearches s /\
     length (st_recentSearches s) <= 5 /\
     (p_env k = render v -> reachable_without report_arrives v w ->
      st_recentSearches s =
        take 5 (name :: filter (fun c => c <> name) (st_recentSearches w))) /\
     (cache_ok recent -> NoDup (st_recentSearches s))) /\
  (forall query, Js.truthy query = true ->
     let s' := invoke (render w) query (Resolved status (Report d)) now w in
     st_recentSearches s' =
       take 5 (name :: filter (fun c => c <> name) (st_recentSearches w)) /\
     skycast_recent s' = st_recentSearches s') /\
  (cache_ok recent ->
     (length (st_recentSearches w) <= 5 /\ NoDup (st_recentSearches w)) /\
     (length (st_recentSearches w') <= 5 /\ NoDup (st_recentSearches w'))) /\
  newRecent "B" ["A"; "B"; "C"] = ["B"; "A"; "C"] /\
  (st_recentSearches w' <> st_recentSearches w -> report_arrives w w').
Proof.
  intros Hw S name s.
  split; [|split; [|split; [|split]]].
  - intros Hk.
    assert (E : st_recentSearches s = newRecent name (recentSearches (p_env k)) /\
                skycast_recent s = newRecent name (recentSearches (p_env k))).
    { subst s. unfold settle. rewrite Hk. now split. }
    destruct E as [E1 E2].
    split; [exact E1|]. split; [now rewrite E1, E2|].
    split; [rewrite E1; apply newRecent_length|]. split.
    + intros Hv Q. rewrite E1, Hv. simpl recentSearches.
      now rewrite (quiet_same_list _ _ Q).
    + intros Hr.
      assert (Is : caches_ok s).
      { eapply caches_ok_step; [apply step_settle; eauto|].
        eapply caches_ok_reachable; [exact Hw|now apply caches_ok_mount]. }
      apply Is.
  - intros query T s'. subst s'. rewrite (invoke_dispatch _ _ _ _ _ T). now simpl.
  - intros Hr.
    assert (I : caches_ok w)
      by (eapply caches_ok_reachable; [exact Hw|now apply caches_ok_mount]).
    assert (I' : caches_ok w') by (eapply caches_ok_step; eauto).
    split; [apply I|apply I'].
  - reflexivity.
  - intros Hne.
    destruct (step_cache _ _ S) as [[E _]|(j & k' & st & d' & now' & Hj & E & _)].
    + contradiction.
    + exists j, st, d', now'. split; [eauto|exact E].
Qed.

(** ** The relay *)

Section RelayFacts.

Implicit Types (query : gmap string string) (upstream : Request -> AxiosResult).

Lemma present_Some (v : option string) :
  Relay.present v = true -> exists s, v = Some s /\ s <> "".
Proof.
  destruct v as [[|c r]|]; simpl; try discriminate.
  intros _. eexists. split; [reflexivity|discriminate].
Qed.

(** The parameters forwarded are the ones received, without [endpoint]. *)
Lemma forwarded_params query key city :
  query !! "access_key" = Some key -> query !! "query" = Some city ->
  delete "query" (delete "access_key" (delete "endpoint" query))
    ∪ <["query" := city]> (<["access_key" := key]> ∅)
  = delete "endpoint" query.
Proof.
  intros Hk Hc. apply map_eq. intros i.
  rewrite lookup_union.
  destruct (decide (i = "query")) as [->|Hq].
  { rewrite lookup_delete_eq, lookup_insert_eq, lookup_delete_ne by done.
    now rewrite Hc. }
  destruct (decide (i = "access_key")) as [->|Ha].
  { rewrite lookup_delete_ne, lookup_delete_eq by done.
    rewrite lookup_insert_ne, lookup_insert_eq, lookup_delete_ne by done.
    now rewrite Hk. }
  rewrite !lookup_insert_ne, lookup_empty by done.
  rewrite !(lookup_delete_ne _ _ i) by done.
  now destruct (delete "endpoint" query !! i).
Qed.

(** The request the relay makes when the credential and the query are there. *)
Lemma handler_forwards query upstream :
  Relay.present (query !! "access_key") = true ->
  Relay.present (query !! "query") = true ->
  let req := {| url := "http://api.weatherstack.com/" ++
                       default "current" (query !! "endpoint");
                params := delete "endpoint" query |} in
  Relay.handler query upstream =
  match upstream req with
  | Resolved _ data =>
      {| Relay.calls := [req];
         Relay.response := {| Relay.status := 200; Relay.headers := Relay.cors;
                              Relay.body := data |} |}
  | Rejected err =>
      {| Relay.calls := [req];
         Relay.response :=
           {| Relay.status := 500; Relay.headers := ∅;
              Relay.body := Relay.failure ("Proxy Error: " ++ err_message err) |} |}
  end.
Proof.
  intros Pk Pc req. unfold Relay.handler. rewrite Pk, Pc. simpl.
  destruct (present_Some _ Pk) as (key & Hk & _).
  destruct (present_Some _ Pc) as (city & Hc & _).
  rewrite Hk, Hc. simpl. rewrite (forwarded_params _ _ _ Hk Hc).
  subst req. now destruct (upstream _).
Qed.

Lemma handler_rejects query upstream :
  Relay.present (query !! "access_key") = false \/
  Relay.present (query !! "query") = false ->
  Relay.handler query upstream =
  {| Relay.calls := [];
     Relay.response :=
       {| Relay.status := 400; Relay.headers := ∅;
          Relay.body := Relay.failure "Missing access_key or query parameters." |} |}.
Proof.
  intros [H|H]; unfold Relay.handler; rewrite H; simpl; [reflexivity|].
  now rewrite orb_true_r.
Qed.

(** Any answer the call resolves with comes back with status 200. *)
Lemma handler_status_200 query upstream st data :
  Relay.present (query !! "access_key") = true ->
  Relay.present (query !! "query") = true ->
  (forall req, upstream req = Resolved st data) ->
  Relay.status (Relay.response (Relay.handler query upstream)) = 200%Z.
Proof.
  intros Pk Pc Hu. rewrite (handler_forwards _ _ Pk Pc). now rewrite Hu.
Qed.

(** The two routes meet: the relay turns the request the page sends it over
    HTTPS into the request the page sends directly over HTTP. *)
Lemma relay_forwards_direct (env : Closure) (searchCity : string) upstream :
  Js.truthy (Js.trim (apiKey env)) = true -> Js.truthy searchCity = true ->
  Relay.calls (Relay.handler (params (request env "https:" searchCity)) upstream)
  = [request env "http:" searchCity].
Proof.
  intros Tk Tc.
  assert (Hk : params (request env "https:" searchCity) !! "access_key"
               = Some (Js.trim (apiKey env))).
  { unfold request. destruct (historical env); by simplify_map_eq. }
  assert (Hc : params (request env "https:" searchCity) !! "query"
               = Some searchCity).
  { unfold request. destruct (historical env); by simplify_map_eq. }
  assert (He : params (request env "https:" searchCity) !! "endpoint"
               = Some (endpoint env)).
  { unfold request. destruct (historical env); by simplify_map_eq. }
  rewrite handler_forwards by (rewrite ?Hk, ?Hc; assumption).
  rewrite He. simpl default.
  assert (Hp : delete "endpoint" (params (request env "https:" searchCity))
               = params (request env "http:" searchCity)).
  { unfold request. simpl. destruct (historical env).
    - rewrite !(delete_insert_ne _ "endpoint") by done.
      now rewrite delete_insert_id by by simplify_map_eq.
    - now rewrite delete_insert_id by by simplify_map_eq. }
  rewrite Hp. now destruct (upstream _).
Qed.

End RelayFacts.

(** C4, amended: without a credential or without a query (missing or empty)
    the relay answers 400 and calls nobody; otherwise it makes one call, to
    the endpoint of the weather service named by the mode, with the
    parameters it received; when that call resolves it answers 200 with
    the body received, unmodified, and the cross-origin headers (so an answer
    with status 200 is mirrored); when the call throws it answers 500 with a
    "Proxy Error" body. *)
Theorem C4_relay (query : gmap string string) (upstream : Request -> AxiosResult) :
  let out := Relay.handler query upstream in
  let req := {| url := "http://api.weatherstack.com/" ++
                       default "current" (query !! "endpoint");
                params := delete "endpoint" query |} in
  (Relay.present (query !! "access_key") = false \/
   Relay.present (query !! "query") = false ->
   Relay.calls out = [] /\ Relay.status (Relay.response out) = 400%Z) /\
  (Relay.present (query !! "access_key") = true ->
   Relay.present (query !! "query") = true ->
   Relay.calls out = [req] /\
   match upstream req with
   | Resolved st data =>
       Relay.status (Relay.response out) = 200%Z /\
       Relay.body (Relay.response out) = data /\
       Relay.headers (Relay.response out) = Relay.cors /\
       (st = 200%Z -> Relay.mirrors (upstream req) (Relay.response out))
   | Rejected err =>
       Relay.status (Relay.response out) = 500%Z /\
       Relay.body (Relay.response out) =
         Relay.failure ("Proxy Error: " ++ err_message err)
   end).
Proof.
  intros out req. subst out. split.
  - intros H. now rewrite (handler_rejects _ _ H).
  - intros Pk Pc. rewrite (handler_forwards _ _ Pk Pc). fold req.
    destruct (upstream req) as [st data|err] eqn:E; simpl.
    + split; [reflexivity|]. do 3 (split; [reflexivity|]).
      intros ->. now split.
    + now repeat split.
Qed.

(** C10: a request with a credential and a query but without the parameter
    [endpoint] is not refused: the relay makes its one call to the endpoint
    [current] of the weather service, with the credential and the query it
    received, and its answer is not the 400 of a refused request. *)
Theorem C10_relay_default_mode
    (query : gmap string string) (upstream : Request -> AxiosResult) :
  query !! "endpoint" = None ->
  Relay.present (query !! "access_key") = true ->
  Relay.present (query !! "query") = true ->
  exists req : Request,
    Relay.calls (Relay.handler query upstream) = [req] /\
    url req = "http://api.weatherstack.com/current" /\
    params req = query /\
    Relay.status (Relay.response (Relay.handler query upstream)) <> 400%Z.
Proof.
  intros He Pk Pc. rewrite (handler_forwards _ _ Pk Pc). rewrite He. simpl.
  rewrite (delete_id _ _ He).
  eexists. split; [|split; [|split]].
  - destruct (upstream _); reflexivity.
  - reflexivity.
  - reflexivity.
  - destruct (upstream _); discriminate.
Qed.

(** ** More on the request *)

(** X1: the parameters of a request are the credential, trimmed, and the
    query; the parameter [endpoint] exactly on a page loaded over HTTPS; the
    date with [hourly = 1] and [interval = 3] exactly when the archive is
    switched on and a date is chosen, which is also exactly when the endpoint
    is [historical]: without a date the call is a live one. *)
Theorem X1_request_parameters (env : Closure) (protocol searchCity : string) :
  let r := request env protocol searchCity in
  let archive := useHistorical env = true /\ historicalDate env <> "" in
  dom (params r) =
    ({["access_key"; "query"]} : gset string)
    ∪ (if secure protocol then {["endpoint"]} else ∅)
    ∪ (if historical env then {["historical_date"; "hourly"; "interval"]} else ∅) /\
  params r !! "access_key" = Some (Js.trim (apiKey env)) /\
  params r !! "query" = Some searchCity /\
  (archive ->
   endpoint env = "historical" /\
   params r !! "historical_date" = Some (historicalDate env) /\
   params r !! "hourly" = Some "1" /\ params r !! "interval" = Some "3") /\
  (~ archive ->
   endpoint env = "current" /\
   params r !! "historical_date" = None /\
   params r !! "hourly" = None /\ params r !! "interval" = None).
Proof.
  intros r archive. subst r.
  assert (Ha : historical env = true <-> archive).
  { unfold historical, archive. rewrite andb_true_iff.
    destruct (historicalDate env); simpl; intuition congruence. }
  unfold request, endpoint.
  destruct (secure protocol), (historical env) eqn:H; simpl;
    (split; [rewrite !dom_insert_L, dom_empty_L; set_solver|]);
    (split; [by simplify_map_eq|]); (split; [by simplify_map_eq|]);
    (split; [intros A|intros A]);
    try (apply Ha in A; discriminate); try (elim A; now apply Ha);
    repeat split; by simplify_map_eq.
Qed.

(** ** More on the retry *)

Section RetryFacts.

Implicit Types (env : Closure) (w : World).

(** The timer at position [i] fires: its callback runs in its own closure. *)
Lemma fire_at i t w :
  timers w !! i = Some t ->
  fire i w = fetchWeather (t_env t) (t_query t) (clearTimer i w).
Proof. intros Ht. unfold fire. now rewrite Ht. Qed.

(** What an invocation that ran alone leaves when its answer carries one of
    the four codes. *)
Lemma invoke_tier env query status e now w :
  Js.truthy query = true -> tier_restricted (error_code e) = true ->
  let w1 := invoke env query (Resolved status (Failure e)) now w in
  sent w1 = (sent w ++ [request env (protocol w) (normalize query)])%list /\
  timers w1 = (timers w ++ [{| t_env := env; t_query := normalize query;
                               t_delay := 2000 |}])%list /\
  protocol w1 = protocol w /\ inflight w1 = inflight w /\
  error w1 = Some PREMIUM_RECOVERY /\ weatherData w1 = None /\
  loading w1 = false.
Proof.
  intros T C w1. subst w1. rewrite (invoke_dispatch _ _ _ _ _ T).
  rewrite (fetchWeather_dispatch _ _ _ T). unfold fetchWeather_settle, seq.
  rewrite C. simpl. rewrite delete_last. now repeat split.
Qed.

End RetryFacts.

(** X2: when the answer of a call carries one of the four codes and the
    normalised query is not empty, the timer it schedules, once it fires,
    sends the request of the call again, unchanged: same target, same mode,
    same parameters. *)
Theorem X2_retry_resends_request
    (env : Closure) (query now : string) (status : Z) (e : ApiError) (w : World) :
  Js.truthy (normalize query) = true ->
  tier_restricted (error_code e) = true ->
  let w1 := invoke env query (Resolved status (Failure e)) now w in
  let r := request env (protocol w) (normalize query) in
  sent w1 = (sent w ++ [r])%list /\
  sent (fire (length (timers w)) w1) = (sent w ++ [r; r])%list.
Proof.
  intros Tn C w1 r.
  assert (T : Js.truthy query = true).
  { destruct query; [|reflexivity].
    rewrite normalize_blank in Tn by reflexivity. discriminate Tn. }
  destruct (invoke_tier env query status e now w T C) as (Hs & Ht & Hp & _).
  fold w1 in Hs, Ht, Hp. split; [exact Hs|].
  rewrite (fire_at _ {| t_env := env; t_query := normalize query; t_delay := 2000 |})
    by (rewrite Ht; apply lookup_last).
  simpl t_env. simpl t_query. rewrite (fetchWeather_dispatch _ _ _ Tn). simpl.
  rewrite Hs, Hp, normalize_idem. now rewrite <- app_assoc.
Qed.


(** ** More on the list of recent searches *)

Section RecentFacts.

Implicit Types (l : list string) (name : string).

Lemma filter_keep name l : name ∉ l -> filter (fun c => c <> name) l = l.
Proof.
  induction l as [|x l IH]; [reflexivity|].
  rewrite not_elem_of_cons. intros [Hx Hl].
  rewrite filter_cons_True by congruence. now rewrite IH.
Qed.

Lemma filter_drops name l : name ∉ filter (fun c => c <> name) l.
Proof. rewrite list_elem_of_filter. intros [H _]. now apply H. Qed.

Lemma newRecent_cons name l :
  newRecent name l = name :: take 4 (filter (fun c => c <> name) l).
Proof. reflexivity. Qed.

Lemma not_elem_of_take name l n : name ∉ l -> name ∉ take n l.
Proof.
  intros H Hin. apply H. eapply elem_of_sublist; [exact Hin|apply sublist_take].
Qed.

Lemma newRecent_idem name l : newRecent name (newRecent name l) = newRecent name l.
Proof.
  rewrite (newRecent_cons name l). rewrite newRecent_cons.
  rewrite filter_cons_False by (intros H; now apply H).
  rewrite filter_keep by apply not_elem_of_take, filter_drops.
  now rewrite take_take.
Qed.

(** The list with the name moved to the front is a rearrangement of the list
    when the name was in it. *)
Lemma move_to_front_perm name l :
  NoDup l -> name ∈ l -> name :: filter (fun c => c <> name) l ≡ₚ l.
Proof.
  intros Hl Hin. apply NoDup_Permutation; [|exact Hl|].
  - apply NoDup_cons. split; [apply filter_drops|now apply NoDup_filter].
  - intros x. rewrite elem_of_cons, list_elem_of_filter.
    destruct (decide (x = name)) as [->|Hne]; intuition.
Qed.

End RecentFacts.

(** X4: the copy of the list kept in [localStorage] is the list held by the
    component, in every state reached from the mounted component, whatever
    the order in which calls, answers and timers interleave. *)
Theorem X4_stored_copy_in_step
    (proto key : string) (recent : list string) (w : World) :
  reachable (mount proto key recent) w ->
  skycast_recent w = st_recentSearches w.
Proof.
  induction 1 as [|w w' _ IH S]; [reflexivity|].
  destruct S as [query w|i res now w [k Hk]|i w [t Ht]|w|d w|k w|w];
    try exact IH.
  - pose proof (fetchWeather_frame (render w) query w) as F. cbv zeta in F.
    destruct F as (_ & _ & -> & -> & _). exact IH.
  - unfold settle. rewrite Hk. unfold seq.
    destruct res as [st [e|d]|err]; simpl.
    + destruct (tier_restricted (error_code e)); simpl; exact IH.
    + reflexivity.
    + exact IH.
  - unfold fire. rewrite Ht. unfold seq.
    pose proof (fetchWeather_frame (t_env t) (t_query t) (clearTimer i w)) as F.
    cbv zeta in F. destruct F as (_ & _ & -> & -> & _). exact IH.
Qed.

(** X5: a success for a place already in the list only rearranges the list:
    the place comes first, every other entry stays, none is dropped and the
    length does not change. *)
Theorem X5_known_place_reorders (name : string) (l : list string) :
  cache_ok l -> name ∈ l ->
  newRecent name l ≡ₚ l /\
  newRecent name l !! 0 = Some name /\
  length (newRecent name l) = length l.
Proof.
  intros [Hlen Hnd] Hin.
  pose proof (move_to_front_perm name l Hnd Hin) as P.
  assert (E : newRecent name l = name :: filter (fun c => c <> name) l).
  { unfold newRecent. apply take_ge. rewrite P. exact Hlen. }
  rewrite E. split; [exact P|]. split; [reflexivity|]. now rewrite P.
Qed.

(** X6: a success for a place that is not in the list puts it in front of the
    first four entries, in their order: of five entries the last one is the
    one dropped. *)
Theorem X6_new_place_evicts_last (name : string) (l : list string) :
  name ∉ l -> newRecent name l = name :: take 4 l.
Proof. intros H. rewrite newRecent_cons. now rewrite filter_keep. Qed.

(** X7: two successes in a row for the same place, each through the callback
    of the current render: the second one leaves the list as the first one
    made it. *)
Theorem X7_same_place_twice
    (query query' now now' : string) (status status' : Z) (d d' : WeatherData)
    (w : World) :
  Js.truthy query = true -> Js.truthy query' = true ->
  location_name d' = location_name d ->
  let w1 := invoke (render w) query (Resolved status (Report d)) now w in
  let w2 := invoke (render w1) query' (Resolved status' (Report d')) now' w1 in
  st_recentSearches w2 = st_recentSearches w1.
Proof.
  intros T T' E w1 w2. subst w2 w1.
  rewrite (invoke_dispatch _ _ _ _ _ T'). simpl st_recentSearches at 1.
  rewrite (invoke_dispatch _ _ _ _ _ T). simpl.
  rewrite E. apply newRecent_idem.
Qed.

(** ** More on one invocation *)

Section InvocationFacts.

Implicit Types (env : Closure) (w : World) (res : AxiosResult).

(** No terminal message is the notice of the retry. *)
Lemma terminal_not_notice proto res message :
  classify proto res = TerminalError message -> message <> PREMIUM_RECOVERY.
Proof.
  destruct res as [st [e|d]|err]; simpl.
  - destruct (tier_restricted (error_code e)); [discriminate|].
    intros [= <-]. discriminate.
  - discriminate.
  - intros [= <-]. unfold catch_message.
    repeat case_bool_decide; try discriminate. destruct (secure proto); discriminate.
Qed.

(** The world just before the answer of a lone invocation is processed. *)
Lemma invoke_outcome env query res now w :
  Js.truthy query = true ->
  let w' := invoke env query res now w in
  sent w' = (sent w ++ [request env (protocol w) (normalize query)])%list /\
  inflight w' = inflight w /\ loading w' = false /\
  match classify (protocol w) res with
  | Success d =>
      weatherData w' = Some d /\ error w' = None /\ timers w' = timers w /\
      st_useHistorical w' = st_useHistorical w /\ lastUpdated w' = Some now
  | RecoverableError notice =>
      weatherData w' = None /\ error w' = Some notice /\
      timers w' = (timers w ++ [{| t_env := env; t_query := normalize query;
                                   t_delay := 2000 |}])%list /\
      st_useHistorical w' = false /\ lastUpdated w' = lastUpdated w
  | TerminalError message =>
      weatherData w' = None /\ error w' = Some message /\ timers w' = timers w /\
      st_useHistorical w' = st_useHistorical w /\ lastUpdated w' = lastUpdated w
  end.
Proof.
  intros T w'. subst w'. rewrite (invoke_dispatch _ _ _ _ _ T).
  rewrite (fetchWeather_dispatch _ _ _ T).
  unfold fetchWeather_settle, seq, clearPending, axios_get.
  destruct res as [st [e|d]|err]; simpl.
  - destruct (tier_restricted (error_code e)); simpl; rewrite delete_last;
      now repeat split.
  - rewrite delete_last. now repeat split.
  - rewrite delete_last. now repeat split.
Qed.

End InvocationFacts.

(** X8: after an invocation that ran alone, the notice
    "PREMIUM_RECOVERY: ..." is the error on display exactly when this
    invocation scheduled a retry, and exactly then it switched the archive
    off; in every other case the timers and the mode are as they were. *)
Theorem X8_notice_iff_retry
    (env : Closure) (query now : string) (res : AxiosResult) (w : World) :
  Js.truthy query = true ->
  let w' := invoke env query res now w in
  (error w' = Some PREMIUM_RECOVERY <->
   exists t, timers w' = (timers w ++ [t])%list) /\
  (error w' = Some PREMIUM_RECOVERY -> st_useHistorical w' = false) /\
  (error w' <> Some PREMIUM_RECOVERY ->
   timers w' = timers w /\ st_useHistorical w' = st_useHistorical w).
Proof.
  intros T w'. subst w'.
  pose proof (invoke_outcome env query res now w T) as H. cbv zeta in H.
  destruct H as (_ & _ & _ & H).
  assert (Hne : forall t : Timer, timers w <> (timers w ++ [t])%list).
  { intros t E. apply (f_equal length) in E. rewrite length_app in E. simpl in E. lia. }
  destruct (classify (protocol w) res) as [d|notice|message] eqn:C.
  - destruct H as (_ & He & Ht & Hu & _). rewrite He, Ht, Hu.
    split; [split; [discriminate|intros [t E]; now elim (Hne t)]|].
    split; [discriminate|tauto].
  - assert (notice = PREMIUM_RECOVERY) as ->.
    { destruct res as [st [e|d]|err]; simpl in C; try discriminate.
      destruct (tier_restricted (error_code e)); congruence. }
    destruct H as (_ & He & Ht & Hu & _). rewrite He, Ht, Hu.
    split; [split; eauto|]. split; [reflexivity|]. intros N. now elim N.
  - pose proof (terminal_not_notice _ _ _ C) as N.
    destruct H as (_ & He & Ht & Hu & _). rewrite He, Ht, Hu.
    split; [split; [intros [= E]; contradiction|intros [t E]; now elim (Hne t)]|].
    split; [intros [= E]; contradiction|tauto].
Qed.

(** X9: the pipeline never switches the archive on: after a transition from a
    state with the archive off the archive is on only when the transition is
    the mode button. *)
Theorem X9_archive_only_by_button (w w' : World) :
  step w w' -> st_useHistorical w = false -> st_useHistorical w' = true ->
  w' = setUseHistorical true w.
Proof.
  intros S Hoff Hon.
  destruct S as [query w|i res now w [k Hk]|i w [t Ht]|w|d w|k w|w].
  - pose proof (fetchWeather_frame (render w) query w) as F. cbv zeta in F.
    destruct F as (_ & _ & _ & _ & _ & F & _). congruence.
  - unfold settle in Hon. rewrite Hk in Hon. unfold seq in Hon.
    pose proof (settle_outcome (p_env k) (p_searchCity k) now res (clearPending i w)) as H.
    cbv zeta in H. destruct (classify _ res); destruct H as (_ & _ & _ & _ & _ & H);
      rewrite H in Hon; simpl in Hon; congruence.
  - unfold fire in Hon. rewrite Ht in Hon. unfold seq in Hon.
    pose proof (fetchWeather_frame (t_env t) (t_query t) (clearTimer i w)) as F.
    cbv zeta in F. destruct F as (_ & _ & _ & _ & _ & F & _).
    rewrite F in Hon. simpl in Hon. congruence.
  - now rewrite Hoff.
  - simpl in Hon. congruence.
  - simpl in Hon. congruence.
  - simpl in Hon. congruence.
Qed.

(** X10: an invocation sends one request when its query is not the empty
    string and none when it is; processing the answer sends nothing, so a
    retry is only ever a later call of its own. *)
Theorem X10_one_request_per_call
    (env : Closure) (query now : string) (res : AxiosResult) (w : World) :
  length (sent (invoke env query res now w)) =
    length (sent w) + (if Js.truthy query then 1 else 0) /\
  sent (fetchWeather_settle env query now res w) = sent w /\
  (query = "" -> invoke env query res now w = w).
Proof.
  split; [|split].
  - destruct query as [|c r].
    + change (invoke env "" res now w) with w. simpl. lia.
    + pose proof (invoke_outcome env (String c r) res now w eq_refl) as H.
      cbv zeta in H. destruct H as (-> & _). rewrite length_app. reflexivity.
  - apply settle_frame.
  - intros ->. reflexivity.
Qed.

(** ** More on the relay *)

(** X11: the relay answers 400, 200 or 500 and nothing else; it calls the
    weather service at most once, and not at all exactly when it answers 400;
    the cross-origin headers are on the answers with status 200 and on no
    other answer. *)
Theorem X11_relay_outcomes
    (query : gmap string string) (upstream : Request -> AxiosResult) :
  let out := Relay.handler query upstream in
  let st := Relay.status (Relay.response out) in
  (st = 400 \/ st = 200 \/ st = 500)%Z /\
  length (Relay.calls out) <= 1 /\
  (st = 400%Z <-> Relay.calls out = []) /\
  (st = 200%Z -> Relay.headers (Relay.response out) = Relay.cors) /\
  (st <> 200%Z -> Relay.headers (Relay.response out) = ∅).
Proof.
  intros out st. subst st out. unfold Relay.handler.
  destruct (negb (Relay.present (query !! "access_key")) ||
            negb (Relay.present (query !! "query"))); simpl.
  - split; [auto|]. split; [lia|]. split; [tauto|].
    split; [discriminate|reflexivity].
  - destruct (upstream _) as [s data|err]; simpl.
    + split; [auto|]. split; [lia|]. split; [split; discriminate|].
      split; [reflexivity|]. intros H. now elim H.
    + split; [auto|]. split; [lia|]. split; [split; discriminate|].
      split; [discriminate|reflexivity].
Qed.

(** The answer of the relay to the request of a page loaded over HTTPS, in
    terms of the request the page would send directly. *)
Lemma relay_on_page_request
    (env : Closure) (searchCity : string) (upstream : Request -> AxiosResult) :
  Js.truthy (Js.trim (apiKey env)) = true -> Js.truthy searchCity = true ->
  Relay.handler (params (request env "https:" searchCity)) upstream =
  match upstream (request env "http:" searchCity) with
  | Resolved _ data =>
      {| Relay.calls := [request env "http:" searchCity];
         Relay.response := {| Relay.status := 200; Relay.headers := Relay.cors;
                              Relay.body := data |} |}
  | Rejected err =>
      {| Relay.calls := [request env "http:" searchCity];
         Relay.response :=
           {| Relay.status := 500; Relay.headers := ∅;
              Relay.body := Relay.failure ("Proxy Error: " ++ err_message err) |} |}
  end.
Proof.
  intros Tk Tc.
  assert (Hk : params (request env "https:" searchCity) !! "access_key"
               = Some (Js.trim (apiKey env))).
  { unfold request. destruct (historical env); by simplify_map_eq. }
  assert (Hc : params (request env "https:" searchCity) !! "query"
               = Some searchCity).
  { unfold request. destruct (historical env); by simplify_map_eq. }
  assert (He : params (request env "https:" searchCity) !! "endpoint"
               = Some (endpoint env)).
  { unfold request. destruct (historical env); by simplify_map_eq. }
  rewrite handler_forwards by (rewrite ?Hk, ?Hc; assumption).
  rewrite He. simpl default.
  assert (Hp : delete "endpoint" (params (request env "https:" searchCity))
               = params (request env "http:" searchCity)).
  { unfold request. simpl. destruct (historical env).
    - rewrite !(delete_insert_ne _ "endpoint") by done.
      now rewrite delete_insert_id by by simplify_map_eq.
    - now rewrite delete_insert_id by by simplify_map_eq. }
  rewrite Hp. reflexivity.
Qed.

(** X12: the two routes meet.  For a non-empty credential and query, the
    relay turns the request the page sends it over HTTPS into the very
    request the page sends the weather service over HTTP, and hands the body
    of a resolved call back unchanged: the page receives on either route the
    body it then classifies. *)
Theorem X12_relay_route_agrees
    (env : Closure) (searchCity : string) (upstream : Request -> AxiosResult)
    (status : Z) (data : ResponseData) :
  Js.truthy (Js.trim (apiKey env)) = true -> Js.truthy searchCity = true ->
  upstream (request env "http:" searchCity) = Resolved status data ->
  let out := Relay.handler (params (request env "https:" searchCity)) upstream in
  Relay.calls out = [request env "http:" searchCity] /\
  Relay.status (Relay.response out) = 200%Z /\
  Relay.body (Relay.response out) = data.
Proof.
  intros Tk Tc Hu out. subst out.
  rewrite (relay_on_page_request env searchCity upstream Tk Tc), Hu.
  now repeat split.
Qed.

(** X13: the relay never answers 401, so an error whose response is an
    answer of the relay never makes the page say "ACCESS_DENIED": behind
    the relay a refused credential does not reach the branch written for
    it. *)
Theorem X13_relay_hides_401
    (query : gmap string string) (upstream : Request -> AxiosResult)
    (proto : string) (err : AxiosError) :
  let answer := Relay.response (Relay.handler query upstream) in
  err_response err = Some (Relay.status answer, Relay.body answer) ->
  Relay.status answer <> 401%Z /\ catch_message proto err <> ACCESS_DENIED.
Proof.
  intros answer Hr.
  assert (H : Relay.status answer <> 401%Z).
  { subst answer. unfold Relay.handler.
    destruct (negb _ || negb _); simpl; [discriminate|].
    destruct (upstream _); simpl; discriminate. }
  split; [exact H|]. unfold catch_message. rewrite Hr. simpl.
  rewrite bool_decide_false by congruence.
  case_bool_decide; [destruct (secure proto)|]; discriminate.
Qed.

(** ** What the page shows *)

Section DisplayFacts.

Import Display.

Lemma theme_by_tests d rest :
  getThemeClass (Some (d :: rest)) =
  Some (if sunny (Js.toLowerCase d) then "theme-sunny"
        else if cloudy (Js.toLowerCase d) then "theme-cloudy"
        else if rainy (Js.toLowerCase d) then "theme-rainy"
        else "theme-default").
Proof.
  unfold getThemeClass, sunny, cloudy, rainy.
  destruct (_ || _); [reflexivity|]. destruct (_ || _); [reflexivity|].
  now destruct (_ || _).
Qed.

Lemma logo_by_tests d rest :
  getLogoClass (Some (d :: rest)) =
  Some (if sunny (Js.toLowerCase d) then "logo-glow-sunny"
        else if rainy (Js.toLowerCase d) then "logo-glow-rainy"
        else if cloudy (Js.toLowerCase d) then "logo-glow-cloudy"
        else "").
Proof.
  unfold getLogoClass, sunny, cloudy, rainy.
  destruct (_ || _); [reflexivity|]. destruct (_ || _); [reflexivity|].
  now destruct (_ || _).
Qed.

End DisplayFacts.

(** X14: the theme and the glow of the logo do not look at the case of the
    letters of the description: two descriptions with the same lowercase form
    get the same classes. *)
Theorem X14_theme_ignores_case (d d' : string) (rest rest' : list string) :
  Js.toLowerCase d' = Js.toLowerCase d ->
  Display.getThemeClass (Some (d' :: rest')) = Display.getThemeClass (Some (d :: rest)) /\
  Display.getLogoClass (Some (d' :: rest')) = Display.getLogoClass (Some (d :: rest)).
Proof.
  intros E. rewrite !theme_by_tests, !logo_by_tests. now rewrite E.
Qed.

(** X15: the two functions test the words in different orders.  The glow of
    the logo is the one that goes with the theme, except for a description
    that names clouds ("cloud" or "overcast") and rain ("rain" or "drizzle")
    but no sun ("sun" or "clear"): there the theme is the cloudy one and the
    glow the rainy one. *)
Theorem X15_theme_and_glow (d : string) (rest : list string) :
  let desc := Js.toLowerCase d in
  let mixed := Display.cloudy desc && Display.rainy desc &&
               negb (Display.sunny desc) in
  (mixed = false ->
   Display.getLogoClass (Some (d :: rest)) =
   Display.glow_of_theme <$> Display.getThemeClass (Some (d :: rest))) /\
  (mixed = true ->
   Display.getThemeClass (Some (d :: rest)) = Some "theme-cloudy" /\
   Display.getLogoClass (Some (d :: rest)) = Some "logo-glow-rainy").
Proof.
  intros desc mixed. subst mixed desc. rewrite theme_by_tests, logo_by_tests.
  destruct (Display.sunny _), (Display.cloudy _), (Display.rainy _);
    simpl; split; intros H;
    try discriminate; try reflexivity; now split.
Qed.

(** X16: the advice follows a fixed order of tests.  Heat (above 32) wins
    over everything, cold (below 10) over wind and moisture, wind (above 30)
    over moisture (above 80), and the calm text is shown exactly when the
    temperature is between 10 and 32, the wind at most 30 and the humidity at
    most 80. *)
Theorem X16_advice_table (temperature wind_speed humidity : Z) :
  let advice := Display.getAdvice temperature wind_speed humidity in
  (advice = Display.CORE_ALERT <-> 32 < temperature)%Z /\
  (advice = Display.THERMAL_WARNING <-> temperature < 10)%Z /\
  (advice = Display.KINETIC_NOTICE <->
   10 <= temperature <= 32 /\ 30 < wind_speed)%Z /\
  (advice = Display.SATURATION_ALERT <->
   10 <= temperature <= 32 /\ wind_speed <= 30 /\ 80 < humidity)%Z /\
  (advice = Display.STABILITY_ACHIEVED <->
   10 <= temperature <= 32 /\ wind_speed <= 30 /\ humidity <= 80)%Z.
Proof.
  intros advice. subst advice. unfold Display.getAdvice.
  destruct (Z.ltb_spec 32 temperature); [|destruct (Z.ltb_spec temperature 10);
    [|destruct (Z.ltb_spec 30 wind_speed); [|destruct (Z.ltb_spec 80 humidity)]]];
    repeat split; intros; try discriminate; try lia; try reflexivity.
Qed.

(** ** The refresh timer *)

Section RefreshFacts.

Import Refresh.

Lemma run_cleanup_empty p : tidy p -> intervals (run_cleanup p) = [].
Proof.
  unfold tidy, run_cleanup. destruct (cleanup p) as [[id|]|]; simpl; auto.
  intros (i & -> & <-). now rewrite filter_cons_False by (intros H; now apply H).
Qed.

Lemma commit_intervals autoRefresh weatherData env p :
  tidy p ->
  intervals (commit autoRefresh weatherData env p) =
  match weatherData with
  | Some d =>
      if autoRefresh
      then [{| i_id := next_id p; i_env := env; i_query := location_name d;
               i_period := 300000 |}]
      else []
  | None => []
  end.
Proof.
  intros T. unfold commit, effect. rewrite (run_cleanup_empty _ T).
  assert (N : next_id (run_cleanup p) = next_id p).
  { unfold run_cleanup. now destruct (cleanup p). }
  rewrite N. destruct weatherData as [d|], autoRefresh; reflexivity.
Qed.

Lemma commit_tidy autoRefresh weatherData env p :
  tidy p -> tidy (commit autoRefresh weatherData env p).
Proof.
  intros T. pose proof (commit_intervals autoRefresh weatherData env p T) as H.
  unfold tidy. revert H. unfold commit, effect.
  destruct weatherData as [d|], autoRefresh; simpl; intros H; try exact H.
  rewrite H. eexists. split; [reflexivity|]. simpl.
  unfold run_cleanup. now destruct (cleanup p).
Qed.

Lemma commits_tidy h p : tidy p -> tidy (commits h p).
Proof.
  revert p. induction h as [|[[a wd] env] h IH]; intros p T; [exact T|].
  simpl. apply IH. now apply commit_tidy.
Qed.

End RefreshFacts.

(** X17: whatever the history of renders, after a commit at most one
    interval is registered: it is there exactly when auto-refresh is on and a
    report is held, it runs every 300000 ms, and each run calls the callback
    of that render for the name of the held location; the cleanup of the
    effect leaves no interval behind. *)
Theorem X17_one_refresh_timer
    (h : list (bool * option WeatherData * Closure))
    (autoRefresh : bool) (weatherData : option WeatherData) (env : Closure)
    (w : World) :
  let p := Refresh.commit autoRefresh weatherData env (Refresh.commits h Refresh.fresh) in
  length (Refresh.intervals p) <= 1 /\
  (Refresh.intervals p <> [] <-> autoRefresh = true /\ is_Some weatherData) /\
  (forall i, i ∈ Refresh.intervals p ->
     Refresh.i_period i = 300000%Z /\
     exists d, weatherData = Some d /\
       Refresh.tick i w = fetchWeather env (location_name d) w) /\
  Refresh.intervals (Refresh.run_cleanup p) = [].
Proof.
  intros p.
  assert (T : Refresh.tidy (Refresh.commits h Refresh.fresh)).
  { apply commits_tidy. reflexivity. }
  pose proof (commit_intervals autoRefresh weatherData env _ T) as H. fold p in H.
  assert (T' : Refresh.tidy p) by now apply commit_tidy.
  split; [|split; [|split]].
  - rewrite H. destruct weatherData, autoRefresh; simpl; lia.
  - rewrite H. destruct weatherData as [d|], autoRefresh; split.
    + intros _. split; [reflexivity|eauto].
    + discriminate.
    + intros N. now elim N.
    + intros [? _]. discriminate.
    + intros N. now elim N.
    + intros [_ [? ?]]. discriminate.
    + intros N. now elim N.
    + intros [? _]. discriminate.
  - intros i. rewrite H. destruct weatherData as [d|], autoRefresh;
      rewrite ?elem_of_nil; try contradiction.
    rewrite list_elem_of_singleton. intros ->. split; [reflexivity|].
    exists d. split; reflexivity.
  - now apply run_cleanup_empty.
Qed.

(** ** The earlier revisions *)

(** X18: the revision before the relay sends every request straight to the
    weather service, whatever the scheme of the page.  On a page that was not
    loaded over HTTPS the current revision sends the same request, and it
    treats every answer the same way, except an error with code
    [ERR_NETWORK] (and no status 401), where only the text differs. *)
Theorem X18_direct_revision
    (env : Closure) (query searchCity now : string) (res : AxiosResult)
    (w : World) :
  (Js.truthy query = true ->
   exists r,
     sent (Direct.fetchWeather env query w) = (sent w ++ [r])%list /\
     route r = DIRECT /\
     url r = "http://api.weatherstack.com/" ++ endpoint env) /\
  (protocol w <> "https:" ->
   Direct.fetchWeather env query w = fetchWeather env query w) /\
  ((forall err, res = Rejected err ->
      fst <$> err_response err = Some 401%Z \/ err_code err <> Some "ERR_NETWORK") ->
   Direct.fetchWeather_settle env searchCity now res w =
   fetchWeather_settle env searchCity now res w).
Proof.
  split; [|split].
  - intros T. unfold Direct.fetchWeather. rewrite T. simpl.
    eexists. split; [reflexivity|]. unfold route, Direct.request, endpoint. simpl.
    split; [|reflexivity]. now destruct (historical env).
  - intros Hp. unfold Direct.fetchWeather, fetchWeather.
    destruct (Js.truthy query); simpl; [|reflexivity].
    unfold seq. simpl. unfold request, Direct.request, secure.
    destruct (String.eqb_spec (protocol w) "https:"); [contradiction|reflexivity].
  - intros H. destruct res as [st [e|d]|err]; try reflexivity.
    unfold Direct.fetchWeather_settle, fetchWeather_settle, seq. simpl.
    do 3 f_equal. unfold Direct.catch_message, catch_message.
    destruct (H err eq_refl) as [H1|H1].
    + now rewrite !bool_decide_true by exact H1.
    + case_bool_decide; [reflexivity|]. now rewrite !bool_decide_false by exact H1.
Qed.

(** X19: the first revision never schedules a retry and never touches the
    mode or the list of recent searches: an answer with one of the four codes
    is shown as "STATION_RESPONSE: ..." like any other failure.  For
    every answer that is a report, and for every failure body without one of
    the four codes, it leaves the report, the error and the time of the last
    update the current revision leaves. *)
Theorem X19_first_revision
    (env : Closure) (searchCity now : string) (status : Z) (data : ResponseData)
    (res : AxiosResult) (w : World) :
  let v1 := SkyCast.fetchWeather_settle now res w in
  let v1' := SkyCast.fetchWeather_settle now (Resolved status data) w in
  let v3' := fetchWeather_settle env searchCity now (Resolved status data) w in
  (timers v1 = timers w /\ st_useHistorical v1 = st_useHistorical w /\
   st_recentSearches v1 = st_recentSearches w /\
   skycast_recent v1 = skycast_recent w) /\
  (forall e, data = Failure e ->
     error v1' = Some ("STATION_RESPONSE: " ++ errorMsg e)) /\
  ((forall e, data = Failure e -> tier_restricted (error_code e) = false) ->
   weatherData v1' = weatherData v3' /\ error v1' = error v3' /\
   lastUpdated v1' = lastUpdated v3').
Proof.
  intros v1 v1' v3'. subst v1 v1' v3'. split; [|split].
  - destruct res as [st [e|d]|err]; now repeat split.
  - intros e ->. reflexivity.
  - intros H. destruct data as [e|d]; simpl.
    + rewrite (H e eq_refl). now repeat split.
    + now repeat split.
Qed.


(** ** The credential *)

(** X21: a call made after a key was saved carries the new key, trimmed; a
    timer scheduled before carries, when it fires, the key of the render that
    scheduled it, whatever was saved since. *)
Theorem X21_key_of_a_call (k query : string) (i : nat) (t : Timer) (w : World) :
  Js.truthy query = true -> Js.truthy (t_query t) = true ->
  timers w !! i = Some t ->
  (exists r, sent (fetchWeather (render (setApiKey k w)) query (setApiKey k w))
             = (sent w ++ [r])%list /\
             params r !! "access_key" = Some (Js.trim k)) /\
  (exists r, sent (fire i (setApiKey k w)) = (sent w ++ [r])%list /\
             params r !! "access_key" = Some (Js.trim (apiKey (t_env t)))).
Proof.
  intros T Tt Ht. split.
  - rewrite (fetchWeather_dispatch _ _ _ T). simpl. eexists. split; [reflexivity|].
    unfold request. simpl.
    destruct (secure (protocol w)), (historical _); by simplify_map_eq.
  - unfold fire. simpl. rewrite Ht. unfold seq.
    rewrite (fetchWeather_dispatch _ _ _ Tt). simpl. eexists. split; [reflexivity|].
    unfold request.
    destruct (secure (protocol w)), (historical _); by simplify_map_eq.
Qed.

(** ** The position of the user *)

Section LocateFacts.

Import Js Ascii7 Locate.

Lemma numeric_plain c :
  numeric c = true -> isWhiteSpace c = false /\ lowerChar c = c.
Proof.
  destruct c as [[] [] [] [] [] [] [] []]; simpl; intros H;
    try discriminate H; now split.
Qed.

Lemma plain_app s t : plain (s ++ t) = plain s && plain t.
Proof.
  induction s as [|c r IH]; simpl; [reflexivity|].
  now rewrite IH, !andb_assoc.
Qed.

Lemma printed_plain s : printed_number s = true -> plain s = true.
Proof.
  induction s as [|c r IH]; simpl; [reflexivity|].
  intros [Hc Hr]%andb_prop. destruct (numeric_plain c Hc) as [-> ->].
  rewrite Ascii.eqb_refl. simpl. now apply IH.
Qed.

Lemma plain_lower s : plain s = true -> toLowerCase s = s.
Proof.
  induction s as [|c r IH]; simpl; [reflexivity|].
  intros [[_ Hc]%andb_prop Hr]%andb_prop.
  apply Ascii.eqb_eq in Hc. now rewrite Hc, IH.
Qed.

Lemma plain_trimEnd s : plain s = true -> trimEnd s = s.
Proof.
  induction s as [|c r IH]; simpl; [reflexivity|].
  intros [[Hw _]%andb_prop Hr]%andb_prop. rewrite (IH Hr).
  apply negb_true_iff in Hw. rewrite Hw. now destruct r.
Qed.

Lemma plain_trim s : plain s = true -> trim s = s.
Proof.
  intros H. unfold trim.
  assert (E : trimStart s = s).
  { destruct s as [|c r]; [reflexivity|]. simpl in *.
    apply andb_prop in H as [[Hw _]%andb_prop _].
    apply negb_true_iff in Hw. now rewrite Hw. }
  rewrite E. now apply plain_trimEnd.
Qed.

Lemma printed_ascii s : printed_number s = true -> ascii_only s = true.
Proof.
  induction s as [|c r IH]; simpl; [reflexivity|].
  intros [Hc Hr]%andb_prop. rewrite (IH Hr), andb_true_r.
  destruct c as [[] [] [] [] [] [] [] []]; simpl in Hc |- *;
    try discriminate Hc; reflexivity.
Qed.

End LocateFacts.

(** X22: without [navigator.geolocation] the button does nothing, not even
    an error; a failure sets the error and keeps the report that is held, so
    that a report and an error can be on display together; a position is
    looked up as "latitude,longitude", and the printed coordinates reach the
    weather service exactly as printed. *)
Theorem X22_user_location (latitude longitude : string) (w : World) :
  Locate.printed_number latitude = true ->
  Locate.printed_number longitude = true ->
  Locate.getUserLocation Locate.Unsupported w = w /\
  (let w' := Locate.getUserLocation Locate.Denied w in
   weatherData w' = weatherData w /\ is_Some (error w') /\ sent w' = sent w) /\
  (exists r,
     sent (Locate.getUserLocation (Locate.Position latitude longitude) w)
     = (sent w ++ [r])%list /\
     params r !! "query" = Some (latitude ++ "," ++ longitude)).
Proof.
  intros Hlat Hlon. split; [reflexivity|]. split; [simpl; eauto|].
  unfold Locate.getUserLocation.
  assert (T : Js.truthy (latitude ++ "," ++ longitude) = true).
  { destruct latitude; reflexivity. }
  rewrite (fetchWeather_dispatch _ _ _ T). simpl. eexists. split; [reflexivity|].
  assert (P : Locate.plain (latitude ++ "," ++ longitude) = true).
  { rewrite !plain_app, (printed_plain _ Hlat), (printed_plain _ Hlon). reflexivity. }
  assert (N : normalize (latitude ++ "," ++ longitude) = latitude ++ "," ++ longitude).
  { rewrite normalize_ascii.
    2:{ rewrite !ascii_only_app, (printed_ascii _ Hlat), (printed_ascii _ Hlon).
        reflexivity. }
    rewrite (plain_trim _ P), (plain_lower _ P).
    apply alias_fix. destruct latitude as [|c r]; [discriminate|].
    simpl. intros [= -> _]. discriminate Hlat. }
  rewrite N. unfold request.
  destruct (secure (protocol w)), (historical _); by simplify_map_eq.
Qed.

(** ** Calls that overlap *)

(** X23: two calls go out from the same render and both come back with a
    report, the first call first.  As soon as the first answer is in, the
    loading flag is off although the second call is still waiting; and the
    second answer builds the list from the list its render saw, so that at
    the end the list is that list with the second place in front: the first
    place is in it only if it was there before. *)
Theorem X23_overlapping_successes
    (q1 q2 now1 now2 : string) (s1 s2 : Z) (d1 d2 : WeatherData) (w : World) :
  Js.truthy q1 = true -> Js.truthy q2 = true ->
  let n := length (inflight w) in
  let w1 := fetchWeather (render w) q1 w in
  let w2 := fetchWeather (render w1) q2 w1 in
  let w3 := settle n (Resolved s1 (Report d1)) now1 w2 in
  let w4 := settle n (Resolved s2 (Report d2)) now2 w3 in
  loading w3 = false /\ length (inflight w3) = S n /\
  st_recentSearches w3 = newRecent (location_name d1) (st_recentSearches w) /\
  st_recentSearches w4 = newRecent (location_name d2) (st_recentSearches w) /\
  weatherData w4 = Some d2 /\ inflight w4 = inflight w.
Proof.
  intros T1 T2 n w1 w2 w3 w4.
  assert (E3 : w3 = fetchWeather_settle (render w) (normalize q1) now1
                      (Resolved s1 (Report d1)) (clearPending n w2)).
  { subst w3 w2 w1 n. rewrite (fetchWeather_dispatch _ _ _ T1).
    rewrite (fetchWeather_dispatch _ _ _ T2). unfold settle. simpl inflight.
    rewrite lookup_app_l by (rewrite length_app; simpl; lia).
    now rewrite lookup_last. }
  assert (I3 : inflight w3 =
               (inflight w ++ [{| p_env := render w1; p_searchCity := normalize q2;
                                  request_of := request (render w1) (protocol w)
                                                  (normalize q2) |}])%list).
  { rewrite E3. subst w2 w1 n. rewrite (fetchWeather_dispatch _ _ _ T1).
    rewrite (fetchWeather_dispatch _ _ _ T2). simpl.
    rewrite <- app_assoc. apply delete_middle. }
  assert (E4 : w4 = fetchWeather_settle (render w1) (normalize q2) now2
                      (Resolved s2 (Report d2)) (clearPending n w3)).
  { subst w4. unfold settle. rewrite I3. subst n. now rewrite lookup_last. }
  assert (R1 : recentSearches (render w1) = st_recentSearches w).
  { subst w1. now rewrite (fetchWeather_dispatch _ _ _ T1). }
  split; [now rewrite E3|]. split; [rewrite I3, length_app; simpl; lia|].
  split; [now rewrite E3|]. split; [now rewrite E4, <- R1|].
  split; [now rewrite E4|]. rewrite E4. simpl. rewrite I3. apply delete_last.
Qed.

(** ** The page behind the relay *)


End Generic.

(** ** Runs

    The runs below take the runtime on ASCII strings, unless they name the
    one on Latin-1 text. *)

#[export] Existing Instance ascii_runtime.
#[export] Existing Instance ascii_lawful.

(** On Latin-1 text: white space around the query, U+00A0 included, and
    capitals, U+00DC included. *)
Lemma C8_normalize_witness :
  @normalize latin1_runtime (nbsp ++ "BangLore" ++ " ") = "bangalore" /\
  @normalize latin1_runtime ("BANGLORE" ++ nbsp) = "bangalore" /\
  @normalize latin1_runtime (" " ++ ZURICH ++ nbsp) = zurich.
Proof.
  destruct (C8_normalize (rt := latin1_runtime) (laws := latin1_lawful)
              nbsp " " "banglore" "BangLore") as (_ & _ & _ & _ & H);
    [reflexivity|reflexivity|reflexivity|].
  destruct (C8_normalize (rt := latin1_runtime) (laws := latin1_lawful)
              "" nbsp "banglore" "BANGLORE") as (_ & _ & _ & _ & K);
    [reflexivity|reflexivity|reflexivity|].
  destruct (C8_normalize (rt := latin1_runtime) (laws := latin1_lawful)
              " " nbsp zurich ZURICH) as (_ & _ & _ & _ & Z);
    [reflexivity|reflexivity|reflexivity|].
  split; [rewrite H; reflexivity|]. split; [|rewrite Z; reflexivity].
  change ("BANGLORE" ++ nbsp) with ("" ++ "BANGLORE" ++ nbsp).
  rewrite K. reflexivity.
Defined.

(** The same query on the ASCII runtime. *)
Example normalize_ascii_run :
  normalize ("  " ++ "BangLore" ++ " ") = "bangalore".
Proof. reflexivity. Qed.

Lemma C1_route_by_scheme_witness :
  exists r : Request,
    sent (fetchWeather (render (mount "https:" "key" [])) "Banglore"
            (mount "https:" "key" [])) = [r] /\
    route r = RELAYED /\ url r = "/api/weather" /\
    params r !! "endpoint" = Some "current" /\
    params r !! "query" = Some "bangalore".
Proof.
  destruct (C1_route_by_scheme (render (mount "https:" "key" [])) "Banglore"
              (mount "https:" "key" [])) as (r & H); [reflexivity|].
  exists r. exact H.
Defined.

(** The scenario of the specification: "Banglore", live, page loaded over
    HTTP. *)
Example direct_current_bangalore :
  let w := mount "http:" "key" [] in
  (fun r => (url r, params r !! "query")) <$> sent (fetchWeather (render w) "Banglore" w)
  = [("http://api.weatherstack.com/current", Some "bangalore")].
Proof. reflexivity. Qed.

(** C3, as stated, fails for a failure body that comes with a status outside
    2xx, which [axios.get] throws.  On a page loaded over HTTPS a query of
    three spaces reaches the relay with an empty [query]; the relay answers
    400 with its own failure body, whose [info] is "Missing access_key or
    query parameters."; the message shown is the one of the thrown error, not
    the [info] of the body.  And the body with code 603, when it comes with
    status 403, is terminal: no notice, no retry. *)
Lemma C3_thrown_body_counterexample :
  let w := mount "https:" "key" [] in
  let out := Relay.handler (params (request (render w) "https:" (normalize "   ")))
               (fun _ => rome) in
  let e400 := {| error_code := None;
                 error_info := Some "Missing access_key or query parameters.";
                 error_type := None |} in
  let e603 := {| error_code := Some 603%Z; error_info := None; error_type := None |} in
  Relay.status (Relay.response out) = 400%Z /\
  Relay.body (Relay.response out) = Failure e400 /\
  failure_body relay400 = Some e400 /\
  classify "https:" relay400
    = TerminalError "INTERFACE_ERROR: Request failed with status code 400" /\
  error (invoke (render w) "   " relay400 "10:00" w)
    = Some "INTERFACE_ERROR: Request failed with status code 400" /\
  failure_body forbidden603 = Some e603 /\
  tier_restricted (error_code e603) = true /\
  classify "https:" forbidden603
    = TerminalError "INTERFACE_ERROR: Request failed with status code 403" /\
  timers (invoke (render w) "Rome" forbidden603 "10:00" w) = [].
Proof. repeat split. Qed.

Lemma C3_failure_body_witness :
  let e := {| error_code := Some 615%Z; error_info := Some "";
              error_type := Some "request_failed" |} in
  let w := mount "http:" "key" [] in
  error (fetchWeather_settle (render w) "london" "10:00" (Resolved 200 (Failure e)) w)
  = Some "STATION_RESPONSE: request_failed".
Proof.
  intros e w.
  destruct (C3_failure_body (render w) "london" "10:00" (Resolved 200 (Failure e)) e w
              eq_refl) as (_ & _ & _ & H4 & _ & _ & H7 & _).
  destruct H4 as (_ & -> & _).
  - now exists 200%Z.
  - intros (c & [= <-] & Hc). rewrite !elem_of_cons, elem_of_nil in Hc.
    decompose [or] Hc; discriminate || contradiction.
  - rewrite (H7 (or_intror eq_refl) "request_failed" eq_refl); [reflexivity|discriminate].
Defined.

(** An answer with status 401. *)
Lemma C7_terminal_error_witness :
  let w := mount "http:" "key" ["Paris"] in
  let w' := invoke (render w) "London" unauthorized "10:00" w in
  error w' = Some ACCESS_DENIED /\ timers w' = [] /\
  st_recentSearches w' = ["Paris"] /\ skycast_recent w' = ["Paris"] /\
  weatherData w' = None.
Proof.
  intros w.
  apply (C7_terminal_error (render w) "London" "10:00" ACCESS_DENIED unauthorized w);
    reflexivity.
Defined.

(** C9, as stated, fails when two invocations overlap: a call for Paris and a
    call for Rome are both waiting for their answers; the first one fails
    with status 401, then the second one succeeds.  The second call cleared
    the error when it went out, before the first one set it, so once both
    have settled a report and an error message are held together. *)
Lemma C9_overlap_counterexample :
  let w0 := mount "http:" "key" [] in
  let w1 := fetchWeather (render w0) "Paris" w0 in
  let w2 := fetchWeather (render w1) "Rome" w1 in
  let w3 := settle 0 unauthorized "10:00:01" w2 in
  let w4 := settle 0 rome "10:00:02" w3 in
  reachable w0 w4 /\ inflight w4 = [] /\
  is_Some (weatherData w4) /\ is_Some (error w4) /\ ~ exactly_one w4.
Proof.
  intros w0 w1 w2 w3 w4. split; [|split; [|split; [|split]]].
  - apply reachable_step with w3; [|apply step_settle; vm_compute; eauto].
    apply reachable_step with w2; [|apply step_settle; vm_compute; eauto].
    apply reachable_step with w1; [|apply step_call].
    apply reachable_step with w0; [|apply step_call].
    apply reachable_refl.
  - reflexivity.
  - vm_compute. eauto.
  - vm_compute. eauto.
  - intros [[_ H]|[H _]]; vm_compute in H; discriminate.
Qed.

(** The trace of a failed geolocation lookup between a call and its
    answer: the report arrives and the message of the lookup stays. *)
Example location_failure_between :
  let w0 := mount "http:" "key" [] in
  let w1 := fetchWeather (render w0) "Rome" w0 in
  let w2 := Locate.getUserLocation Locate.Denied w1 in
  let w3 := settle 0 rome "10:00:02" w2 in
  step w1 w2 /\ is_Some (weatherData w3) /\ is_Some (error w3).
Proof.
  intros w0 w1 w2 w3. split; [apply step_location_failed|].
  split; vm_compute; eauto.
Qed.

Lemma C9_report_or_error_witness :
  let w0 := mount "http:" "key" [] in
  let w1 := fetchWeather (render w0) "Rome" w0 in
  let w2 := fetchWeather (render w1) "Oslo" w1 in
  reachable_without error_arrives w1 w2 /\
  exactly_one (settle 0 rome "10:00" w2).
Proof.
  intros w0 w1 w2.
  assert (Q : reachable_without error_arrives w1 w2).
  { apply without_step with w1; [apply without_refl|apply step_call|].
    now apply dispatch_quiet. }
  split; [exact Q|].
  destruct (C9_report_or_error (rt := ascii_runtime) (render w0) "Rome" "10:00" rome 0
              {| p_env := render w0; p_searchCity := "rome";
                 request_of := request (render w0) "http:" "rome" |} w0 w2)
    as (_ & H & _).
  destruct (H eq_refl) as (_ & _ & _ & _ & _ & H6).
  now apply H6.
Defined.

Lemma C2_retry_repeats_witness :
  let w1 := invoke (render archive) "London" tier603 "10:00:00" archive in
  let w := Nat.iter 2 retry_round w1 in
  st_useHistorical w = false /\
  timers w = [retry] /\
  url <$> sent w = ["http://api.weatherstack.com/historical";
                    "http://api.weatherstack.com/historical";
                    "http://api.weatherstack.com/historical"].
Proof. exact (C2_retry_repeats (rt := ascii_runtime) 2). Defined.

Lemma C6_blank_query_dispatched_witness :
  let w := mount "https:" "key" [] in
  length (sent (fetchWeather (render w) "   " w)) = 1 /\
  params (request (render w) "https:" "") !! "query" = Some "".
Proof.
  intros w.
  destruct (C6_blank_query_dispatched (rt := ascii_runtime) (render w) w)
    as (_ & H & H').
  split; [now rewrite H|exact H'].
Defined.

(** Even a callback created in live mode schedules a further retry when the
    answer carries one of the four codes. *)
Lemma live_retry_repeats :
  let w := mount "http:" "key" [] in
  let w1 := invoke (render w) "Atlantis" tier602 "10:00:00" w in
  let w2 := retry_round w1 in
  useHistorical (render w) = false /\
  length (timers w1) = 1 /\ length (timers w2) = 1 /\
  url <$> sent w2 = ["http://api.weatherstack.com/current";
                     "http://api.weatherstack.com/current"].
Proof. repeat split. Qed.

(** C5, as stated, fails when two invocations overlap: the list holds Oslo,
    calls for Paris and for Rome go out from the same render and both come
    back with a report.  The second report builds the list from the list its
    render saw, not from the list held by then: Paris, put in front by the
    first report, is gone.  And the list read from the storage is taken as it
    is: six names make a list of six, and a repetition in it survives the
    next report. *)
Lemma C5_stale_list_counterexample :
  let w0 := mount "http:" "key" ["Oslo"] in
  let w1 := fetchWeather (render w0) "paris" w0 in
  let w2 := fetchWeather (render w1) "rome" w1 in
  let w3 := settle 0 paris "10:00:01" w2 in
  let w4 := settle 0 rome "10:00:02" w3 in
  let m := mount "http:" "key" ["A"; "A"] in
  reachable w0 w4 /\
  st_recentSearches w3 = ["Paris"; "Oslo"] /\
  st_recentSearches w4 = ["Rome"; "Oslo"] /\
  st_recentSearches w4 <>
    take 5 ("Rome" :: filter (fun c => c <> "Rome") (st_recentSearches w3)) /\
  length (st_recentSearches (mount "http:" "key" ["A"; "B"; "C"; "D"; "E"; "F"])) = 6 /\
  st_recentSearches (invoke (render m) "rome" rome "10:00" m) = ["Rome"; "A"; "A"].
Proof.
  intros w0 w1 w2 w3 w4 m. split; [|split; [|split; [|split; [|split]]]].
  - apply reachable_step with w3; [|apply step_settle; vm_compute; eauto].
    apply reachable_step with w2; [|apply step_settle; vm_compute; eauto].
    apply reachable_step with w1; [|apply step_call].
    apply reachable_step with w0; [|apply step_call].
    apply reachable_refl.
  - reflexivity.
  - reflexivity.
  - vm_compute. discriminate.
  - reflexivity.
  - reflexivity.
Qed.

Lemma C5_recency_cache_captured_witness :
  let w0 := mount "http:" "key" ["A"; "B"; "C"] in
  let w := fetchWeather (render w0) "b" w0 in
  let b := {| location_name := "B"; report := "rain" |} in
  let s := settle 0 (Resolved 200 (Report b)) "10:00" w in
  st_recentSearches s = ["B"; "A"; "C"] /\
  st_recentSearches s =
    take 5 ("B" :: filter (fun c => c <> "B") (st_recentSearches w)) /\
  NoDup (st_recentSearches s).
Proof.
  intros w0 w b s.
  assert (Hok : cache_ok ["A"; "B"; "C"]).
  { split; [simpl; lia|]. repeat constructor; rewrite ?elem_of_cons, ?elem_of_nil;
      intros H; decompose [or] H; discriminate || contradiction. }
  assert (Hw : reachable w0 w).
  { apply reachable_step with w0; [apply reachable_refl|apply step_call]. }
  assert (Q : reachable_without report_arrives w0 w).
  { apply without_step with w0; [apply without_refl|apply step_call|].
    now apply dispatch_no_report. }
  destruct (C5_recency_cache_captured (rt := ascii_runtime) "http:" "key" "10:00"
              ["A"; "B"; "C"] 200 b 0
              {| p_env := render w0; p_searchCity := "b";
                 request_of := request (render w0) "http:" "b" |} w
              (settle 0 (Resolved 200 (Report b)) "10:00" w) w0
              Hw (step_settle 0 _ _ w (mk_is_Some _ _ eq_refl)))
    as (H & _).
  destruct (H eq_refl) as (H1 & _ & _ & H4 & H5).
  split; [exact H1|]. split; [exact (H4 eq_refl Q)|].
  apply (H5 Hok).
Defined.

(** C4, as stated, fails on the status: the weather service answers 401 to
    the forwarded request, and the relay answers 500 with a body of its own
    and without the cross-origin headers. *)
Lemma C4_mirror_counterexample :
  let query : gmap string string :=
    <["query" := "London"]> (<["access_key" := "key"]> ∅) in
  let upstream : Request -> AxiosResult := fun _ => unauthorized in
  let out := Relay.handler query upstream in
  Relay.present (query !! "access_key") = true /\
  Relay.present (query !! "query") = true /\
  (exists req st data,
     Relay.calls out = [req] /\
     Relay.upstream_answer (upstream req) = Some (st, data) /\ st = 401%Z /\
     Relay.status (Relay.response out) = 500%Z /\
     Relay.body (Relay.response out) <> data /\
     Relay.headers (Relay.response out) = ∅ /\
     ~ Relay.mirrors (upstream req) (Relay.response out)).
Proof.
  intros query upstream out. split; [reflexivity|]. split; [reflexivity|].
  eexists _, _, _. split; [reflexivity|]. split; [reflexivity|].
  split; [reflexivity|]. split; [reflexivity|]. split; [discriminate|].
  split; [reflexivity|]. intros [H _]. discriminate H.
Qed.

Lemma C4_relay_witness :
  let query : gmap string string :=
    <["endpoint" := "historical"]>
      (<["query" := "Rome"]> (<["access_key" := "key"]> ∅)) in
  let out := Relay.handler query (fun _ => rome) in
  (url <$> Relay.calls out) = ["http://api.weatherstack.com/historical"] /\
  Relay.status (Relay.response out) = 200%Z /\
  Relay.calls (Relay.handler ∅ (fun _ => rome)) = [].
Proof.
  intros query out.
  destruct (C4_relay query (fun _ => rome)) as [_ H].
  destruct (H eq_refl eq_refl) as (Hc & Hs & _).
  destruct (C4_relay ∅ (fun _ => rome)) as [H0 _].
  destruct (H0 (or_introl eq_refl)) as [Hn _].
  split; [|split].
  - fold out in Hc. rewrite Hc. reflexivity.
  - exact Hs.
  - exact Hn.
Defined.

Lemma C10_relay_default_mode_witness :
  let query : gmap string string :=
    <["query" := "Rome"]> (<["access_key" := "key"]> ∅) in
  exists req : Request,
    Relay.calls (Relay.handler query (fun _ => rome)) = [req] /\
    url req = "http://api.weatherstack.com/current".
Proof.
  intros query.
  destruct (C10_relay_default_mode query (fun _ => rome) eq_refl eq_refl eq_refl)
    as (req & Hc & Hu & _).
  exists req. split; assumption.
Defined.

Lemma X1_request_parameters_witness :
  let env := {| apiKey := " key "; useHistorical := true; historicalDate := "";
                recentSearches := [] |} in
  endpoint env = "current" /\
  params (request env "http:" "rome") !! "historical_date" = None.
Proof.
  intros env.
  destruct (X1_request_parameters env "http:" "rome") as (_ & _ & _ & _ & H).
  destruct H as (H1 & H2 & _); [|split; assumption].
  intros [_ Hd]. now apply Hd.
Defined.

Lemma X2_retry_resends_request_witness :
  let w := mount "https:" "key" [] in
  let w1 := invoke (render w) " Atlantis" tier602 "10:00" w in
  url <$> sent (fire 0 w1) = ["/api/weather"; "/api/weather"].
Proof.
  intros w w1.
  destruct (X2_retry_resends_request (rt := ascii_runtime) (render w) " Atlantis" "10:00" 200
              {| error_code := Some 602%Z; error_info := None; error_type := None |}
              w eq_refl eq_refl) as [_ H].
  change (length (timers w)) with 0 in H. subst w1. unfold tier602.
  rewrite H. reflexivity.
Defined.


Lemma X4_stored_copy_in_step_witness :
  let w := mount "http:" "key" ["Oslo"] in
  let w1 := invoke (render w) "Rome" rome "10:00" w in
  skycast_recent w1 = ["Rome"; "Oslo"].
Proof.
  intros w w1.
  assert (R : reachable w w1).
  { apply reachable_step with (fetchWeather (render w) "Rome" w).
    - apply reachable_step with w; [apply reachable_refl|apply step_call].
    - apply (step_settle 0 rome "10:00"). vm_compute. eauto. }
  rewrite (X4_stored_copy_in_step "http:" "key" ["Oslo"] w1 R). reflexivity.
Defined.

Lemma X5_known_place_reorders_witness :
  newRecent "C" ["A"; "B"; "C"; "D"; "E"] ≡ₚ ["A"; "B"; "C"; "D"; "E"].
Proof.
  apply X5_known_place_reorders.
  - split; [simpl; lia|].
    repeat constructor; rewrite ?elem_of_cons, ?elem_of_nil;
      intros H; decompose [or] H; discriminate || contradiction.
  - rewrite !elem_of_cons. auto.
Defined.

Lemma X6_new_place_evicts_last_witness :
  newRecent "F" ["A"; "B"; "C"; "D"; "E"] = ["F"; "A"; "B"; "C"; "D"].
Proof.
  rewrite X6_new_place_evicts_last; [reflexivity|].
  rewrite ?elem_of_cons, ?elem_of_nil.
  intros H; decompose [or] H; discriminate || contradiction.
Defined.

Lemma X7_same_place_twice_witness :
  let w := mount "http:" "key" ["Oslo"; "Rome"] in
  let w1 := invoke (render w) "rome" rome "10:00" w in
  st_recentSearches (invoke (render w1) "ROME" rome "10:05" w1) = ["Rome"; "Oslo"].
Proof.
  intros w w1. subst w1. unfold rome.
  rewrite (X7_same_place_twice "rome" "ROME" "10:00" "10:05" 200 200
             {| location_name := "Rome"; report := "sunny" |}
             {| location_name := "Rome"; report := "sunny" |} w
             eq_refl eq_refl eq_refl).
  reflexivity.
Defined.

Lemma X8_notice_iff_retry_witness :
  let w := mount "http:" "key" [] in
  error (invoke (render w) "Rome" tier603 "10:00" w) = Some PREMIUM_RECOVERY.
Proof.
  intros w.
  destruct (X8_notice_iff_retry (render w) "Rome" "10:00" tier603 w eq_refl)
    as [[_ H] _].
  apply H. eexists. reflexivity.
Defined.

Lemma X9_archive_only_by_button_witness :
  let w := mount "http:" "key" [] in
  setUseHistorical (negb (st_useHistorical w)) w = setUseHistorical true w.
Proof.
  intros w.
  apply (X9_archive_only_by_button w (setUseHistorical (negb (st_useHistorical w)) w));
    [apply step_mode|reflexivity|reflexivity].
Defined.

Lemma X10_one_request_per_call_witness :
  invoke (render (mount "http:" "key" [])) "" rome "10:00" (mount "http:" "key" [])
  = mount "http:" "key" [].
Proof.
  destruct (X10_one_request_per_call (render (mount "http:" "key" [])) "" "10:00"
              rome (mount "http:" "key" [])) as (_ & _ & H).
  now apply H.
Defined.

Lemma X11_relay_outcomes_witness :
  Relay.headers (Relay.response (Relay.handler ∅ (fun _ => rome))) = ∅.
Proof.
  destruct (X11_relay_outcomes ∅ (fun _ => rome)) as (_ & _ & _ & _ & H).
  apply H. discriminate.
Defined.

Lemma X12_relay_route_agrees_witness :
  let env := render archive in
  let out := Relay.handler (params (request env "https:" "rome")) (fun _ => rome) in
  url <$> Relay.calls out = ["http://api.weatherstack.com/historical"] /\
  Relay.status (Relay.response out) = 200%Z.
Proof.
  intros env out.
  destruct (X12_relay_route_agrees (rt := ascii_runtime) env "rome" (fun _ => rome) 200
              (Report {| location_name := "Rome"; report := "sunny" |})
              eq_refl eq_refl eq_refl) as (Hc & Hs & _).
  subst out. rewrite Hc. split; [reflexivity|exact Hs].
Defined.

Lemma X13_relay_hides_401_witness :
  let err := {| err_response :=
                  Some (500%Z, Relay.failure "Proxy Error: Request failed with status code 401");
                err_code := Some "ERR_BAD_RESPONSE";
                err_message := "Request failed with status code 500" |} in
  catch_message "https:" err <> ACCESS_DENIED.
Proof.
  intros err.
  pose (query := <["query" := "London"]> (<["access_key" := "key"]> ∅) : gmap string string).
  destruct (X13_relay_hides_401 query (fun _ => unauthorized) "https:" err eq_refl)
    as [_ H].
  exact H.
Defined.

Lemma X14_theme_ignores_case_witness :
  Display.getThemeClass (Some ["PARTLY CLOUDY"]) = Some "theme-cloudy".
Proof.
  destruct (X14_theme_ignores_case (rt := ascii_runtime) "partly cloudy" "PARTLY CLOUDY" [] [] eq_refl)
    as [H _].
  rewrite H. reflexivity.
Defined.

Lemma X15_theme_and_glow_witness :
  Display.getThemeClass (Some ["Cloudy with light rain"]) = Some "theme-cloudy" /\
  Display.getLogoClass (Some ["Cloudy with light rain"]) = Some "logo-glow-rainy".
Proof.
  destruct (X15_theme_and_glow "Cloudy with light rain" []) as [_ H].
  apply H. reflexivity.
Defined.

Lemma X17_one_refresh_timer_witness :
  let d := {| location_name := "Rome"; report := "sunny" |} in
  let w := mount "http:" "key" [] in
  let p := Refresh.commit true (Some d) (render w)
             (Refresh.commits [(true, Some d, render w); (true, Some d, render w)]
                Refresh.fresh) in
  length (Refresh.intervals p) = 1.
Proof.
  intros d w p.
  destruct (X17_one_refresh_timer [(true, Some d, render w); (true, Some d, render w)]
              true (Some d) (render w) w) as (Hle & [_ Hne] & _).
  fold p in Hle, Hne.
  assert (N : Refresh.intervals p <> []) by (apply Hne; split; [reflexivity|eauto]).
  destruct (Refresh.intervals p) as [|i [|j l]]; simpl in *; [now elim N|reflexivity|lia].
Defined.

Lemma X18_direct_revision_witness :
  let w := mount "https:" "key" [] in
  url <$> sent (Direct.fetchWeather (render w) "Rome" w)
  = ["http://api.weatherstack.com/current"].
Proof.
  intros w.
  destruct (X18_direct_revision (render w) "Rome" "rome" "10:00" rome w) as [H _].
  destruct (H eq_refl) as (r & -> & _ & Hu). simpl. now rewrite Hu.
Defined.

Lemma X19_first_revision_witness :
  let w := mount "http:" "key" [] in
  error (SkyCast.fetchWeather_settle "10:00" rome w)
  = error (fetchWeather_settle (render w) "rome" "10:00" rome w).
Proof.
  intros w.
  destruct (X19_first_revision (render w) "rome" "10:00" 200
              (Report {| location_name := "Rome"; report := "sunny" |}) rome w)
    as (_ & _ & H).
  destruct H as (_ & H & _); [discriminate|exact H].
Defined.


Lemma X21_key_of_a_call_witness :
  let w := invoke (render (mount "http:" "old" [])) "Rome" tier603 "10:00"
             (mount "http:" "old" []) in
  exists r, sent (fire 0 (setApiKey "new" w)) = (sent w ++ [r])%list /\
            params r !! "access_key" = Some "old".
Proof.
  intros w.
  destruct (X21_key_of_a_call "new" "Rome" 0
              {| t_env := render (mount "http:" "old" []); t_query := "rome";
                 t_delay := 2000 |} w eq_refl eq_refl eq_refl) as [_ H].
  exact H.
Defined.

Lemma X22_user_location_witness :
  let w := mount "https:" "key" [] in
  exists r,
    sent (Locate.getUserLocation (Locate.Position "12.9716" "-77.5946e-2") w) = [r] /\
    params r !! "query" = Some "12.9716,-77.5946e-2".
Proof.
  intros w.
  destruct (X22_user_location "12.9716" "-77.5946e-2" w eq_refl eq_refl)
    as (_ & _ & H).
  exact H.
Defined.

Lemma X23_overlapping_successes_witness :
  let w := mount "http:" "key" ["Oslo"] in
  let paris := Resolved 200 (Report {| location_name := "Paris"; report := "rain" |}) in
  let w2 := fetchWeather (render w) "rome" (fetchWeather (render w) "paris" w) in
  st_recentSearches (settle 0 rome "10:01" (settle 0 paris "10:00" w2))
  = ["Rome"; "Oslo"].
Proof.
  intros w paris w2.
  destruct (X23_overlapping_successes "paris" "rome" "10:00" "10:01" 200 200
              {| location_name := "Paris"; report := "rain" |}
              {| location_name := "Rome"; report := "sunny" |} w eq_refl eq_refl)
    as (_ & _ & _ & H & _).
  exact H.
Defined.


